(** * go-pathtrace: the scene compiler

    A shallow embedding of [compiler.Compile] and of the stages it runs
    ([bakeTextures], [partitionGeometry], [setupCamera], [align4]), with the
    properties of the flat, GPU-friendly scene they produce.

    Conventions of the embedding.
    - Go's [uint32] and [int32] values are integers of [Z] with the
      wrap-around of every conversion and addition written out ([uint32],
      [int32]).  Go's [int] is the 64-bit [int] of the amd64 targets the
      tracer runs on ([int_wrap]); the length of a slice is the length of
      the list that models it.
    - A Go run-time panic (index or slice bound out of range) is the outcome
      [Panics]; a call that never comes back is [Diverges].
    - The parsed scene graph is taken by value: the pointers of the graph are
      assumed non-nil, and a mesh instance carries the identity of its
      pointee ([miAddr]) because the code compares instance pointers.
    - [float32] and the matrix type of package [types] are not under the
      sources; they are the parameters of the class [Types]. *)

From Stdlib Require Import ZArith Lia.
From Stdlib.Strings Require Import Byte.
From stdpp Require Import base list strings.

Local Open Scope Z_scope.

(** ** Machine integers *)

Definition uint32 (z : Z) : Z := z mod 2 ^ 32.
Definition int32 (z : Z) : Z := (z + 2 ^ 31) mod 2 ^ 32 - 2 ^ 31.
Definition int_wrap (z : Z) : Z := (z + 2 ^ 63) mod 2 ^ 64 - 2 ^ 63.

(** [len(s)] *)
Definition len {A} (s : list A) : Z := Z.of_nat (length s).

(** ** Outcomes of a call *)

Inductive outcome (A : Type) : Type :=
  | Returns (a : A)
  | Panics
  | Diverges.
Arguments Returns {A} a.
Arguments Panics {A}.
Arguments Diverges {A}.

#[export] Instance outcome_ret : MRet outcome := fun _ a => Returns a.
#[export] Instance outcome_bind : MBind outcome := fun _ _ f m =>
  match m with
  | Returns a => f a
  | Panics => Panics
  | Diverges => Diverges
  end.

(** [for index, x := range l { body }] over a state [St]. *)
Fixpoint range_loop {A St} (body : nat → A → St → outcome St)
    (index : nat) (l : list A) (s : St) : outcome St :=
  match l with
  | [] => Returns s
  | x :: l' => s' ← body index x s; range_loop body (S index) l' s'
  end.

(** [s[i] = x]: panics when [i] is out of range. *)
Definition store {A} (s : list A) (i : Z) (x : A) : outcome (list A) :=
  if (0 <=? i) && (i <? len s) then Returns (<[Z.to_nat i := x]> s) else Panics.

(** [s[i]] *)
Definition load {A} (s : list A) (i : Z) : outcome A :=
  if (0 <=? i) && (i <? len s)
  then match s !! Z.to_nat i with Some x => Returns x | None => Panics end
  else Panics.

(** [copy(dst[offset:], src)], in place: slicing panics when [offset]
    exceeds [len(dst)]; [copy] moves [min(len(dst[offset:]), len(src))]
    elements. *)
Definition copy_at {A} (dst : list A) (offset : Z) (src : list A) : outcome (list A) :=
  if (0 <=? offset) && (offset <=? len dst) then
    let o := Z.to_nat offset in
    let n := Nat.min (length dst - o) (length src) in
    Returns (take o dst ++ take n src ++ drop (o + n) dst)
  else Panics.

(** ** align4 (lines 188-196) *)

(** The loop [for { if value%4 == 0 { return uint32(value) }; value++ }];
    Go's [%] truncates towards zero ([Z.rem]).  Four iterations always
    suffice ([align4_loop_terminates]). *)
Fixpoint align4_loop (fuel : nat) (value : Z) : option Z :=
  match fuel with
  | O => None
  | S fuel' =>
      if Z.rem value 4 =? 0 then Some (uint32 value)
      else align4_loop fuel' (int_wrap (value + 1))
  end.

Definition align4 (value : Z) : Z := default 0 (align4_loop 4 value).

(** A fixed-size array [[3]T]. *)
Record Arr3 (A : Type) := mkArr3 { at0 : A; at1 : A; at2 : A }.
Arguments mkArr3 {A}.
Arguments at0 {A}.
Arguments at1 {A}.
Arguments at2 {A}.

(** ** Package [types] *)

(** Modelled from the spec: package [types] is not under the sources.  Its
    [float32] scalars (with the zero literal, the comparison and the
    subtraction the BVH builder needs) and its 4x4 matrix type with the
    inverse [Inv] are parameters.  No theorem below depends on how they are
    implemented. *)
Class Types := {
  float32 : Type;
  f32_zero : float32;
  f32_leb : float32 → float32 → bool;
  f32_sub : float32 → float32 → float32;
  Mat4 : Type;
  Mat4_zero : Mat4;
  Mat4_Inv : Mat4 → Mat4;
}.

Section Compiler.
Context `{Ty : Types}.

Record Vec2 := mkVec2 { v2x : float32; v2y : float32 }.
Record Vec3 := mkVec3 { v3x : float32; v3y : float32; v3z : float32 }.
Record Vec4 := mkVec4 { v4x : float32; v4y : float32; v4z : float32; v4w : float32 }.

Definition Vec2_zero : Vec2 := mkVec2 f32_zero f32_zero.
Definition Vec3_zero : Vec3 := mkVec3 f32_zero f32_zero f32_zero.
Definition Vec4_zero : Vec4 := mkVec4 f32_zero f32_zero f32_zero f32_zero.

(** Modelled from the spec: [Vec3.Vec4(w)] promotes a 3-component vector to
    4 components, the 4th being the argument (the compiler passes 0). *)
Definition Vec3_Vec4 (v : Vec3) (w : float32) : Vec4 :=
  mkVec4 (v3x v) (v3y v) (v3z v) w.

(** ** Package [scene]: the parsed scene (input) *)

Record ParsedTexture := {
  Format : Z;
  Width : Z;
  Height : Z;
  Data : list byte;
}.

(** A triangle.  The bounding box and the centre are what the
    [BoundedVolume] interface exposes. *)
Record ParsedPrimitive := {
  Vertices : Arr3 Vec3;
  Normals : Arr3 Vec3;
  UVs : Arr3 Vec2;
  MaterialIndex : Z;
  primBBox : Vec3 * Vec3;
  primCenter : Vec3;
}.

Record ParsedMesh := { Primitives : list ParsedPrimitive }.

Record ParsedMeshInstance := {
  miAddr : nat;
  MeshIndex : Z;
  Transform : Mat4;
  miBBox : Vec3 * Vec3;
  miCenter : Vec3;
}.

Record ParsedCamera := {
  FOV : float32;
  Eye : Vec3;
  Look : Vec3;
  Up : Vec3;
}.

Record ParsedScene := {
  Textures : list ParsedTexture;
  Meshes : list ParsedMesh;
  MeshInstances : list ParsedMeshInstance;
  pCamera : ParsedCamera;
}.

(** ** Package [scene]: the optimized scene (output) *)

Record TextureMetadata := {
  tmFormat : Z;
  tmWidth : Z;
  tmHeight : Z;
  DataOffset : Z;
}.

(** Modelled from the spec: [scene.BvhNode] is not under the sources.  A node
    has a bounding box and is either internal (two child indices into the
    node array) or a leaf (an instance index for the top-level tree, or a
    primitive range: offset and count); a node fresh from the builder has
    no payload yet.  Indices are unsigned 32-bit. *)
Inductive NodeData :=
  | NoData
  | ChildNodes (left right : Z)
  | MeshIndexLeaf (index : Z)
  | PrimitivesLeaf (firstPrimIndex count : Z).

Record BvhNode := mkBvhNode {
  Min : Vec3;
  Max : Vec3;
  NData : NodeData;
}.

Definition SetChildNodes (n : BvhNode) (left right : Z) : BvhNode :=
  mkBvhNode (Min n) (Max n) (ChildNodes (uint32 left) (uint32 right)).
Definition SetMeshIndex (n : BvhNode) (index : Z) : BvhNode :=
  mkBvhNode (Min n) (Max n) (MeshIndexLeaf (uint32 index)).
Definition SetPrimitives (n : BvhNode) (firstPrimIndex count : Z) : BvhNode :=
  mkBvhNode (Min n) (Max n) (PrimitivesLeaf (uint32 firstPrimIndex) (uint32 count)).

(** Modelled from the spec: index rebasing, [OffsetChildNodes(offset int32)]
    adds the offset to every stored child index; leaves are left alone. *)
Definition OffsetChildNodes (n : BvhNode) (offset : Z) : BvhNode :=
  match NData n with
  | ChildNodes l r =>
      mkBvhNode (Min n) (Max n) (ChildNodes (uint32 (l + offset)) (uint32 (r + offset)))
  | _ => n
  end.

Record MeshInstance := {
  oMeshIndex : Z;
  BvhRoot : Z;
  oTransform : Mat4;
}.

Record Camera := {
  cFOV : float32;
  Position : Vec3;
  LookAt : Vec3;
  cUp : Vec3;
}.

(** Modelled from the spec: [scene.NewCamera(fov)] makes a camera with the
    given field of view. *)
Definition NewCamera (fov : float32) : Camera :=
  {| cFOV := fov; Position := Vec3_zero; LookAt := Vec3_zero; cUp := Vec3_zero |}.

Record Scene := mkScene {
  TextureData : list byte;
  TextureMetadataList : list TextureMetadata;
  VertexList : list Vec4;
  NormalList : list Vec4;
  UvList : list Vec2;
  MaterialIndexList : list Z;
  BvhNodeList : list BvhNode;
  MeshInstanceList : list MeshInstance;
  oCamera : option Camera;
}.

(** [&scene.Scene{}] *)
Definition Scene_empty : Scene := mkScene [] [] [] [] [] [] [] [] None.

Definition with_TextureData (s : Scene) (x : list byte) : Scene :=
  mkScene x (TextureMetadataList s) (VertexList s) (NormalList s) (UvList s)
    (MaterialIndexList s) (BvhNodeList s) (MeshInstanceList s) (oCamera s).
Definition with_TextureMetadata (s : Scene) (x : list TextureMetadata) : Scene :=
  mkScene (TextureData s) x (VertexList s) (NormalList s) (UvList s)
    (MaterialIndexList s) (BvhNodeList s) (MeshInstanceList s) (oCamera s).
Definition with_VertexList (s : Scene) (x : list Vec4) : Scene :=
  mkScene (TextureData s) (TextureMetadataList s) x (NormalList s) (UvList s)
    (MaterialIndexList s) (BvhNodeList s) (MeshInstanceList s) (oCamera s).
Definition with_NormalList (s : Scene) (x : list Vec4) : Scene :=
  mkScene (TextureData s) (TextureMetadataList s) (VertexList s) x (UvList s)
    (MaterialIndexList s) (BvhNodeList s) (MeshInstanceList s) (oCamera s).
Definition with_UvList (s : Scene) (x : list Vec2) : Scene :=
  mkScene (TextureData s) (TextureMetadataList s) (VertexList s) (NormalList s) x
    (MaterialIndexList s) (BvhNodeList s) (MeshInstanceList s) (oCamera s).
Definition with_MaterialIndex (s : Scene) (x : list Z) : Scene :=
  mkScene (TextureData s) (TextureMetadataList s) (VertexList s) (NormalList s) (UvList s)
    x (BvhNodeList s) (MeshInstanceList s) (oCamera s).
Definition with_BvhNodeList (s : Scene) (x : list BvhNode) : Scene :=
  mkScene (TextureData s) (TextureMetadataList s) (VertexList s) (NormalList s) (UvList s)
    (MaterialIndexList s) x (MeshInstanceList s) (oCamera s).
Definition with_MeshInstanceList (s : Scene) (x : list MeshInstance) : Scene :=
  mkScene (TextureData s) (TextureMetadataList s) (VertexList s) (NormalList s) (UvList s)
    (MaterialIndexList s) (BvhNodeList s) x (oCamera s).
Definition with_Camera (s : Scene) (x : Camera) : Scene :=
  mkScene (TextureData s) (TextureMetadataList s) (VertexList s) (NormalList s) (UvList s)
    (MaterialIndexList s) (BvhNodeList s) (MeshInstanceList s) (Some x).

(** ** The compiler *)

Definition minPrimitivesPerLeaf : Z := 10.

Record sceneCompiler := mkCompiler {
  parsedScene : ParsedScene;
  optimizedScene : Scene;
}.

(** Go's [error]: [None] is [nil]. *)
Definition error := option string.

(** *** bakeTextures (lines 53-77) *)

(** First loop: [totalDataLen += align4(len(tex.Data))] in [uint32]. *)
Definition totalDataLen (texs : list ParsedTexture) : Z :=
  fold_left (fun acc tex => uint32 (acc + align4 (len (Data tex)))) texs 0.

(** Body of the second loop; the state is the output scene and [offset].
    The metadata slot is the zero value until its four fields are
    assigned. *)
Definition bakeTexture (index : nat) (tex : ParsedTexture) (st : Scene * Z)
    : outcome (Scene * Z) :=
  let '(os, offset) := st in
  md ← store (TextureMetadataList os) (Z.of_nat index)
         {| tmFormat := Format tex; tmWidth := Width tex;
            tmHeight := Height tex; DataOffset := offset |};
  td ← copy_at (TextureData os) offset (Data tex);
  Returns (with_TextureData (with_TextureMetadata os md) td,
           uint32 (offset + uint32 (align4 (len (Data tex))))).

Definition bakeTextures (sc : sceneCompiler) : outcome (sceneCompiler * error) :=
  let texs := Textures (parsedScene sc) in
  let os0 :=
    with_TextureMetadata
      (with_TextureData (optimizedScene sc)
         (replicate (Z.to_nat (totalDataLen texs)) x00))
      (replicate (length texs)
         {| tmFormat := 0; tmWidth := 0; tmHeight := 0; DataOffset := 0 |}) in
  '(os, _) ← range_loop bakeTexture 0 texs (os0, 0);
  Returns (mkCompiler (parsedScene sc) os, None).

(** *** The BVH builder *)

(** The capability shared by mesh instances and primitives. *)
Class BoundedVolume (V : Type) := {
  BBox : V → Vec3 * Vec3;
  Center : V → Vec3;
}.

#[export] Instance ParsedMeshInstance_volume : BoundedVolume ParsedMeshInstance :=
  {| BBox := miBBox; Center := miCenter |}.
#[export] Instance ParsedPrimitive_volume : BoundedVolume ParsedPrimitive :=
  {| BBox := primBBox; Center := primCenter |}.

Definition f32_min (a b : float32) : float32 := if f32_leb a b then a else b.
Definition f32_max (a b : float32) : float32 := if f32_leb a b then b else a.

Definition bbox_union (a b : Vec3 * Vec3) : Vec3 * Vec3 :=
  (mkVec3 (f32_min (v3x a.1) (v3x b.1)) (f32_min (v3y a.1) (v3y b.1))
          (f32_min (v3z a.1) (v3z b.1)),
   mkVec3 (f32_max (v3x a.2) (v3x b.2)) (f32_max (v3y a.2) (v3y b.2))
          (f32_max (v3z a.2) (v3z b.2))).

Definition bboxOf {V} `{BoundedVolume V} (workList : list V) : Vec3 * Vec3 :=
  match workList with
  | [] => (Vec3_zero, Vec3_zero)
  | v :: rest => fold_left (fun b x => bbox_union b (BBox x)) rest (BBox v)
  end.

Inductive Axis := AxisX | AxisY | AxisZ.

Definition component (a : Axis) (v : Vec3) : float32 :=
  match a with AxisX => v3x v | AxisY => v3y v | AxisZ => v3z v end.

Definition longestAxis (box : Vec3 * Vec3) : Axis :=
  let dx := f32_sub (v3x box.2) (v3x box.1) in
  let dy := f32_sub (v3y box.2) (v3y box.1) in
  let dz := f32_sub (v3z box.2) (v3z box.1) in
  if f32_leb dy dx && f32_leb dz dx then AxisX
  else if f32_leb dz dy then AxisY else AxisZ.

(** Stable insertion by centroid along an axis: [x], which precedes the
    elements of [sorted] in the original order, stays before its equals. *)
Fixpoint insertByCenter {V} `{BoundedVolume V} (a : Axis) (x : V) (sorted : list V) : list V :=
  match sorted with
  | [] => [x]
  | y :: rest =>
      if f32_leb (component a (Center x)) (component a (Center y))
      then x :: y :: rest
      else y :: insertByCenter a x rest
  end.

Definition sortByCenter {V} `{BoundedVolume V} (a : Axis) (workList : list V) : list V :=
  foldr (insertByCenter a) [] workList.

Definition splitByMedian {V} `{BoundedVolume V} (a : Axis) (workList : list V)
    : list V * list V :=
  let sorted := sortByCenter a workList in
  let mid := (length workList / 2)%nat in
  (take mid sorted, drop mid sorted).

(** Modelled from the spec: [BuildBVH] and its recursive partition are not
    under the sources.  Top-down: the bounding box of the subset is computed;
    at most [minLeafItems] volumes make a leaf, finished by the callback;
    otherwise the subset is split at the median of the centroids along the
    longest axis of the box (ties keep the original order) and the two halves
    are built recursively.  The node of a call is the first of the array the
    call produces (the caller records the start of a mesh's array as its
    root, line 151), followed by the arrays of its two halves; [base] is the
    position of that node in the array being built, and child indices are
    positions within that array. *)
Fixpoint buildNodes {V St} `{BoundedVolume V} (fuel : nat) (minLeafItems : Z)
    (leafCb : BvhNode → list V → St → outcome (BvhNode * St))
    (workList : list V) (base : Z) (st : St) : outcome (list BvhNode * St) :=
  match fuel with
  | O => Diverges
  | S fuel' =>
      let box := bboxOf workList in
      let node := mkBvhNode box.1 box.2 NoData in
      if len workList <=? minLeafItems then
        '(node', st') ← leafCb node workList st;
        Returns ([node'], st')
      else
        let halves := splitByMedian (longestAxis box) workList in
        '(lnodes, st1) ← buildNodes fuel' minLeafItems leafCb halves.1 (base + 1) st;
        '(rnodes, st2) ← buildNodes fuel' minLeafItems leafCb halves.2
                            (base + 1 + len lnodes) st1;
        Returns (SetChildNodes node (base + 1) (base + 1 + len lnodes)
                   :: lnodes ++ rnodes, st2)
  end.

Definition BuildBVH {V St} `{BoundedVolume V} (workList : list V) (minLeafItems : Z)
    (leafCb : BvhNode → list V → St → outcome (BvhNode * St)) (st : St)
    : outcome (list BvhNode * St) :=
  buildNodes (S (length workList)) minLeafItems leafCb workList 0 st.

(** *** partitionGeometry (lines 82-170) *)

(** Leaf callback of the instance-level tree (lines 89-99): the index of the
    first instance pointer equal to [workList[0]] is stored on the node. *)
Definition instanceLeafCb (ps : ParsedScene) (node : BvhNode)
    (workList : list ParsedMeshInstance) (st : unit) : outcome (BvhNode * unit) :=
  pmi ← load workList 0;
  Returns (match list_find (fun mi => miAddr mi = miAddr pmi) (MeshInstances ps) with
           | Some (index, _) => SetMeshIndex node (uint32 (Z.of_nat index))
           | None => node
           end, st).

(** What the mesh-level closure captures and mutates: the output scene and
    the two global write cursors. *)
Record geomState := mkGeom {
  gScene : Scene;
  vertexOffset : Z;
  primOffset : Z;
}.

(** Lines 128-145: one primitive of a leaf. *)
Definition copyPrimitive (prim : ParsedPrimitive) (g : geomState) : outcome geomState :=
  let os := gScene g in
  let vo := vertexOffset g in
  vl ← store (VertexList os) (uint32 (vo + 0)) (Vec3_Vec4 (at0 (Vertices prim)) f32_zero);
  vl ← store vl (uint32 (vo + 1)) (Vec3_Vec4 (at1 (Vertices prim)) f32_zero);
  vl ← store vl (uint32 (vo + 2)) (Vec3_Vec4 (at2 (Vertices prim)) f32_zero);
  nl ← store (NormalList os) (uint32 (vo + 0)) (Vec3_Vec4 (at0 (Normals prim)) f32_zero);
  nl ← store nl (uint32 (vo + 1)) (Vec3_Vec4 (at1 (Normals prim)) f32_zero);
  nl ← store nl (uint32 (vo + 2)) (Vec3_Vec4 (at2 (Normals prim)) f32_zero);
  ul ← store (UvList os) (uint32 (vo + 0)) (at0 (UVs prim));
  ul ← store ul (uint32 (vo + 1)) (at1 (UVs prim));
  ml ← store (MaterialIndexList os) (primOffset g) (MaterialIndex prim);
  Returns (mkGeom
    (with_MaterialIndex (with_UvList (with_NormalList (with_VertexList os vl) nl) ul) ml)
    (uint32 (vo + 3)) (uint32 (primOffset g + 1))).

(** Leaf callback of a mesh-level tree (lines 123-147). *)
Definition meshLeafCb (node : BvhNode) (workList : list ParsedPrimitive) (g : geomState)
    : outcome (BvhNode * geomState) :=
  let node' := SetPrimitives node (primOffset g) (uint32 (len workList)) in
  g' ← range_loop (fun _ => copyPrimitive) 0 workList g;
  Returns (node', g').

(** Body of the loop over the meshes (lines 117-156); the state is the
    closure state and [meshBvhRoots]. *)
Definition partitionMesh (mIndex : nat) (pm : ParsedMesh) (st : geomState * list Z)
    : outcome (geomState * list Z) :=
  let '(g, meshBvhRoots) := st in
  '(bvhNodes, g1) ← BuildBVH (Primitives pm) minPrimitivesPerLeaf meshLeafCb g;
  let offset := int32 (len (BvhNodeList (gScene g1))) in
  meshBvhRoots' ← store meshBvhRoots (Z.of_nat mIndex) (uint32 offset);
  let bvhNodes' := map (fun n => OffsetChildNodes n offset) bvhNodes in
  Returns (mkGeom (with_BvhNodeList (gScene g1) (BvhNodeList (gScene g1) ++ bvhNodes'))
             (vertexOffset g1) (primOffset g1),
           meshBvhRoots').

(** Body of the loop over the mesh instances (lines 160-167). *)
Definition processInstance (meshBvhRoots : list Z) (index : nat)
    (pmi : ParsedMeshInstance) (os : Scene) : outcome Scene :=
  root ← load meshBvhRoots (MeshIndex pmi);
  mil ← store (MeshInstanceList os) (Z.of_nat index)
          {| oMeshIndex := MeshIndex pmi; BvhRoot := root;
             oTransform := Mat4_Inv (Transform pmi) |};
  Returns (with_MeshInstanceList os mil).

(** [totalVertices], an [int]. *)
Definition totalVertices (ps : ParsedScene) : Z :=
  fold_left (fun acc pm => acc + 3 * len (Primitives pm)) (Meshes ps) 0.

Definition partitionGeometry (sc : sceneCompiler) : outcome (sceneCompiler * error) :=
  let ps := parsedScene sc in
  '(top, _) ← BuildBVH (MeshInstances ps) 1 (instanceLeafCb ps) ();
  let os := with_BvhNodeList (optimizedScene sc) top in
  let tv := totalVertices ps in
  let os := with_VertexList os (replicate (Z.to_nat tv) Vec4_zero) in
  let os := with_NormalList os (replicate (Z.to_nat tv) Vec4_zero) in
  let os := with_UvList os (replicate (Z.to_nat tv) Vec2_zero) in
  let os := with_MaterialIndex os (replicate (Z.to_nat (Z.quot tv 3)) 0) in
  '(g, meshBvhRoots) ←
     range_loop partitionMesh 0 (Meshes ps)
       (mkGeom os 0 0, replicate (length (Meshes ps)) 0);
  let os := with_MeshInstanceList (gScene g)
              (replicate (length (MeshInstances ps))
                 {| oMeshIndex := 0; BvhRoot := 0; oTransform := Mat4_zero |}) in
  os ← range_loop (processInstance meshBvhRoots) 0 (MeshInstances ps) os;
  Returns (mkCompiler ps os, None).

(** *** createLayeredMaterialTrees (lines 174-176) and setupCamera (179-186) *)

Definition createLayeredMaterialTrees (sc : sceneCompiler) : outcome (sceneCompiler * error) :=
  Returns (sc, Some "sceneCompiler: createLayeredMaterialTrees() not yet implemented"%string).

Definition setupCamera (sc : sceneCompiler) : outcome (sceneCompiler * error) :=
  let pc := pCamera (parsedScene sc) in
  let cam := NewCamera (FOV pc) in
  let cam := {| cFOV := cFOV cam; Position := Eye pc; LookAt := Look pc; cUp := Up pc |} in
  Returns (mkCompiler (parsedScene sc) (with_Camera (optimizedScene sc) cam), None).

(** *** Compile (lines 21-49) *)

Definition Compile (parsedScene : ParsedScene) : outcome (option Scene * error) :=
  let compiler := mkCompiler parsedScene Scene_empty in
  '(compiler, err) ← bakeTextures compiler;
  match err with
  | Some e => Returns (None, Some e)
  | None =>
      '(compiler, err) ← partitionGeometry compiler;
      match err with
      | Some e => Returns (None, Some e)
      | None =>
          '(compiler, err) ← setupCamera compiler;
          match err with
          | Some e => Returns (None, Some e)
          | None => Returns (Some (optimizedScene compiler), None)
          end
      end
  end.

End Compiler.

(** * Package [material]: operator types
    (the Go fragment at the end of
    src/tracer/opencl/CL/bxdf/specular_microfacet_reflection.cl, lines 150-168) *)

(** The constant block [opInvalid OpType = 10000 + iota], continued over
    [OpMix], [OpBumpMap], [OpNormalMap] and [lastOpEntry]. *)
Definition opConst (iota : Z) : Z := 10000 + iota.

Definition opInvalid : Z := opConst 0.
Definition OpMix : Z := opConst 1.
Definition OpBumpMap : Z := opConst 2.
Definition OpNormalMap : Z := opConst 3.
Definition lastOpEntry : Z := opConst 4.

(** [IsOpType(t uint32) bool] *)
Definition IsOpType (t : Z) : bool :=
  (uint32 opInvalid <? t) && (t <? uint32 lastOpEntry).

(** * Vocabulary of the properties *)

Section Vocabulary.
Context `{Ty : Types}.

(** The next multiple of 4, in the integers. *)
Definition pad4 (n : Z) : Z := 4 * ((n + 3) / 4).

(** Sum of [align4(len(tex.Data))] over a list of textures. *)
Definition paddedTotal (texs : list ParsedTexture) : Z :=
  foldr (fun tex acc => align4 (len (Data tex)) + acc) 0 texs.

(** The padded payloads fit the 32-bit offsets of the metadata. *)
Definition fits32 (texs : list ParsedTexture) : Prop :=
  foldr (fun tex acc => pad4 (len (Data tex)) + acc) 0 texs < 2 ^ 32.

(** A payload followed by its padding. *)
Definition padTex (tex : ParsedTexture) : list byte :=
  Data tex ++ replicate (Z.to_nat (align4 (len (Data tex))) - length (Data tex))%nat x00.

Definition zeroMetadata : TextureMetadata :=
  {| tmFormat := 0; tmWidth := 0; tmHeight := 0; DataOffset := 0 |}.

Fixpoint metadataFrom (offset : Z) (texs : list ParsedTexture) : list TextureMetadata :=
  match texs with
  | [] => []
  | tex :: rest =>
      {| tmFormat := Format tex; tmWidth := Width tex; tmHeight := Height tex;
         DataOffset := offset |} :: metadataFrom (offset + align4 (len (Data tex))) rest
  end.

(** Number of primitives of a list of meshes, and of the scene. *)
Definition countPrimitives (meshes : list ParsedMesh) : Z :=
  foldr (fun pm acc => len (Primitives pm) + acc) 0 meshes.
Definition totalPrimitives (ps : ParsedScene) : Z := countPrimitives (Meshes ps).

Definition allPrimitives (ps : ParsedScene) : list ParsedPrimitive :=
  flat_map Primitives (Meshes ps).

(** What the leaf callback writes for one primitive: three vertex slots,
    three normal slots, and two of the three UV slots (the third keeps the
    zero value of the allocation). *)
Definition promVertices (prim : ParsedPrimitive) : list Vec4 :=
  [Vec3_Vec4 (at0 (Vertices prim)) f32_zero; Vec3_Vec4 (at1 (Vertices prim)) f32_zero;
   Vec3_Vec4 (at2 (Vertices prim)) f32_zero].
Definition promNormals (prim : ParsedPrimitive) : list Vec4 :=
  [Vec3_Vec4 (at0 (Normals prim)) f32_zero; Vec3_Vec4 (at1 (Normals prim)) f32_zero;
   Vec3_Vec4 (at2 (Normals prim)) f32_zero].
Definition writtenUVs (prim : ParsedPrimitive) : list Vec2 :=
  [at0 (UVs prim); at1 (UVs prim); Vec2_zero].

(** The primitive ranges of the leaves of a node array, in array order. *)
Fixpoint primRanges (nodes : list BvhNode) : list (Z * Z) :=
  match nodes with
  | [] => []
  | n :: rest =>
      match NData n with
      | PrimitivesLeaf o c => (o, c) :: primRanges rest
      | _ => primRanges rest
      end
  end.

(** [chain cur ranges stop]: the ranges are adjacent, the first starts at
    [cur] and the last ends at [stop]. *)
Fixpoint chain (cur : Z) (ranges : list (Z * Z)) (stop : Z) : Prop :=
  match ranges with
  | [] => cur = stop
  | (o, c) :: rest => o = cur ∧ 0 ≤ c ∧ chain (cur + c) rest stop
  end.

(** Both child indices of an internal node lie in [[lo, hi)]. *)
Definition childrenIn (lo hi : Z) (n : BvhNode) : Prop :=
  match NData n with
  | ChildNodes l r => lo ≤ l < hi ∧ lo ≤ r < hi
  | _ => True
  end.

(** Every child index of an array points into the array itself. *)
Definition locallyValid (nodes : list BvhNode) : Prop :=
  Forall (childrenIn 0 (len nodes)) nodes.

(** Index rebasing as the spec words it: the offset is added to both child
    indices. *)
Definition rebase (offset : Z) (n : BvhNode) : BvhNode :=
  match NData n with
  | ChildNodes l r => mkBvhNode (Min n) (Max n) (ChildNodes (l + offset) (r + offset))
  | _ => n
  end.

(** Merging as the spec words it: each array is rebased once by the length
    of the destination at merge time, then appended. *)
Definition mergeAll (top : list BvhNode) (locals : list (list BvhNode)) : list BvhNode :=
  fold_left (fun acc loc => acc ++ map (rebase (len acc)) loc) locals top.

(** Merging as the code does it (lines 150-155): the offset is the [int32]
    conversion of the length, added by [OffsetChildNodes]. *)
Definition mergeCode (top : list BvhNode) (locals : list (list BvhNode)) : list BvhNode :=
  fold_left
    (fun acc loc => acc ++ map (fun n => OffsetChildNodes n (int32 (len acc))) loc)
    locals top.

(** The roots the code records while merging (line 151). *)
Fixpoint rootsFrom (acc : list BvhNode) (locals : list (list BvhNode)) : list Z :=
  match locals with
  | [] => []
  | loc :: rest =>
      uint32 (int32 (len acc))
        :: rootsFrom (acc ++ map (fun n => OffsetChildNodes n (int32 (len acc))) loc) rest
  end.

(** A node is a leaf or still without payload. *)
Definition notInternal (n : BvhNode) : Prop :=
  match NData n with ChildNodes _ _ => False | _ => True end.

(** The nodes of an array that are not internal, in array order. *)
Fixpoint leafNodes (nodes : list BvhNode) : list BvhNode :=
  match nodes with
  | [] => []
  | n :: rest =>
      match NData n with
      | ChildNodes _ _ => leafNodes rest
      | _ => n :: leafNodes rest
      end
  end.

(** A sequence of invocations of a leaf callback, threading its state: each
    entry is the sub-list passed and the node as the callback left it. *)
Inductive LeafRun {V St} (leafCb : BvhNode → list V → St → outcome (BvhNode * St))
    : St → list (list V * BvhNode) → St → Prop :=
  | LeafRun_nil st : LeafRun leafCb st [] st
  | LeafRun_cons st node workList node' st1 run st2 :
      NData node = NoData →
      leafCb node workList st = Returns (node', st1) →
      LeafRun leafCb st1 run st2 →
      LeafRun leafCb st ((workList, node') :: run) st2.

(** A callback that finishes a fresh node as a leaf, or leaves it alone. *)
Definition leafOnly {V St} (cb : BvhNode → list V → St → outcome (BvhNode * St)) : Prop :=
  ∀ node wl st node' st',
    NData node = NoData → cb node wl st = Returns (node', st') → notInternal node'.

(** The geometry buffers while they are being filled: what has been written
    so far, followed by the zero values of the allocation; the cursors are
    the lengths of the written parts. *)
Definition geomLayout (g : geomState) (Av An : list Vec4) (Au : list Vec2) (Am : list Z)
    (kv km : nat) : Prop :=
  VertexList (gScene g) = Av ++ replicate kv Vec4_zero
  ∧ NormalList (gScene g) = An ++ replicate kv Vec4_zero
  ∧ UvList (gScene g) = Au ++ replicate kv Vec2_zero
  ∧ MaterialIndexList (gScene g) = Am ++ replicate km 0
  ∧ len Av = vertexOffset g ∧ len An = vertexOffset g ∧ len Au = vertexOffset g
  ∧ len Am = primOffset g
  ∧ vertexOffset g = 3 * primOffset g.

(** Two scenes agree outside the four geometry buffers. *)
Definition sameOutside (s s' : Scene) : Prop :=
  TextureData s' = TextureData s
  ∧ TextureMetadataList s' = TextureMetadataList s
  ∧ BvhNodeList s' = BvhNodeList s
  ∧ MeshInstanceList s' = MeshInstanceList s
  ∧ oCamera s' = oCamera s.

(** The geometry buffers keep their lengths, and the 4th component of every
    vertex and normal entry stays zero. *)
Definition zeroW (l : list Vec4) : Prop := Forall (fun v => v4w v = f32_zero) l.

Definition geomShape (s s' : Scene) : Prop :=
  length (VertexList s') = length (VertexList s)
  ∧ length (NormalList s') = length (NormalList s)
  ∧ length (UvList s') = length (UvList s)
  ∧ length (MaterialIndexList s') = length (MaterialIndexList s)
  ∧ (zeroW (VertexList s) → zeroW (VertexList s'))
  ∧ (zeroW (NormalList s) → zeroW (NormalList s')).

(** The zero value of an output instance. *)
Definition zeroInstance : MeshInstance :=
  {| oMeshIndex := 0; BvhRoot := 0; oTransform := Mat4_zero |}.

(** What the loop over the instances stores for an instance (lines 161-166). *)
Definition instanceOf (meshBvhRoots : list Z) (pmi : ParsedMeshInstance) (mi : MeshInstance)
    : Prop :=
  oMeshIndex mi = MeshIndex pmi
  ∧ 0 ≤ MeshIndex pmi < len meshBvhRoots
  ∧ meshBvhRoots !! Z.to_nat (MeshIndex pmi) = Some (BvhRoot mi)
  ∧ oTransform mi = Mat4_Inv (Transform pmi).

(** The scene after the instance-level build and the allocations of lines
    89-111. *)
Definition allocGeometry (os : Scene) (top : list BvhNode) (tv : Z) : Scene :=
  let os := with_BvhNodeList os top in
  let os := with_VertexList os (replicate (Z.to_nat tv) Vec4_zero) in
  let os := with_NormalList os (replicate (Z.to_nat tv) Vec4_zero) in
  let os := with_UvList os (replicate (Z.to_nat tv) Vec2_zero) in
  with_MaterialIndex os (replicate (Z.to_nat (Z.quot tv 3)) 0).

(** A metadata entry describes a texture and is 4-byte aligned. *)
Definition describes (tex : ParsedTexture) (md : TextureMetadata) : Prop :=
  tmFormat md = Format tex ∧ tmWidth md = Width tex ∧ tmHeight md = Height tex
  ∧ DataOffset md mod 4 = 0 ∧ 0 ≤ DataOffset md < 2 ^ 32.

(** An instance leaf refers to one of [n] instances. *)
Definition instanceLeafOk (n : nat) (node : BvhNode) : Prop :=
  match NData node with
  | MeshIndexLeaf i => 0 ≤ i < Z.of_nat n
  | _ => True
  end.

(** [reaches nodes i j]: position [j] of the node array is reached from
    position [i] by following child indices. *)
Inductive reaches (nodes : list BvhNode) : Z → Z → Prop :=
  | reaches_here i n :
      0 ≤ i → nodes !! Z.to_nat i = Some n → reaches nodes i i
  | reaches_left i n l r j :
      0 ≤ i → nodes !! Z.to_nat i = Some n → NData n = ChildNodes l r →
      reaches nodes l j → reaches nodes i j
  | reaches_right i n l r j :
      0 ≤ i → nodes !! Z.to_nat i = Some n → NData n = ChildNodes l r →
      reaches nodes r j → reaches nodes i j.

(** The call comes back: with a result or with a panic. *)
Definition terminates {A} (o : outcome A) : Prop := o ≠ Diverges.

(** The mesh-level builds behind a list of node arrays. *)
Definition meshArrays (meshes : list ParsedMesh) (locals : list (list BvhNode)) : Prop :=
  Forall2 (fun pm loc => ∃ g g',
             BuildBVH (Primitives pm) minPrimitivesPerLeaf meshLeafCb g = Returns (loc, g'))
    meshes locals.

End Vocabulary.

(** * Example scenes *)

Module Example.

(** Integer scalars; transforms are opaque. *)
#[export] Instance ZTypes : Types :=
  {| float32 := Z; f32_zero := 0; f32_leb := Z.leb; f32_sub := Z.sub;
     Mat4 := unit; Mat4_zero := tt; Mat4_Inv := fun m => m |}.

Definition v3 (x y z : Z) : Vec3 := mkVec3 x y z.

Definition tri (k : Z) : ParsedPrimitive :=
  {| Vertices := mkArr3 (v3 k 0 0) (v3 (k + 1) 0 0) (v3 k 1 0);
     Normals := mkArr3 (v3 0 0 1) (v3 0 0 1) (v3 0 0 1);
     UVs := mkArr3 (mkVec2 k 1) (mkVec2 k 2) (mkVec2 k 3);
     MaterialIndex := k;
     primBBox := (v3 k 0 0, v3 (k + 1) 1 0);
     primCenter := v3 k 0 0 |}.

Definition inst (a : nat) (m : Z) (x : Z) : ParsedMeshInstance :=
  {| miAddr := a; MeshIndex := m; Transform := tt;
     miBBox := (v3 x 0 0, v3 (x + 5) 1 0); miCenter := v3 x 0 0 |}.

Definition tex (n : nat) : ParsedTexture :=
  {| Format := 1; Width := 2; Height := 3; Data := replicate n x01 |}.

Definition cam : ParsedCamera :=
  {| FOV := 45; Eye := v3 0 0 0; Look := v3 0 0 1; Up := v3 0 1 0 |}.

(** Textures of 3, 5 and 8 bytes; two meshes of 2 and 3 triangles; three
    instances. *)
Definition exampleScene : ParsedScene :=
  {| Textures := [tex 3; tex 5; tex 8];
     Meshes := [ {| Primitives := [tri 3; tri 1] |};
                 {| Primitives := [tri 5; tri 4; tri 9] |} ];
     MeshInstances := [inst 0 1 7; inst 1 0 2; inst 2 1 4];
     pCamera := cam |}.

(** A mesh large enough to be split (12 primitives). *)
Definition splitScene : ParsedScene :=
  {| Textures := [];
     Meshes := [ {| Primitives := [tri 3; tri 1] |};
                 {| Primitives := map tri [5; 4; 9; 8; 7; 6; 1; 2; 3; 10; 12; 11] |} ];
     MeshInstances := [inst 0 1 7; inst 1 0 2];
     pCamera := cam |}.

(** One triangle, one instance. *)
Definition oneTriangleScene : ParsedScene :=
  {| Textures := []; Meshes := [ {| Primitives := [tri 7] |} ];
     MeshInstances := [inst 0 0 0]; pCamera := cam |}.

(** An instance of a mesh that does not exist. *)
Definition danglingScene : ParsedScene :=
  {| Textures := []; Meshes := [ {| Primitives := [tri 7] |} ];
     MeshInstances := [inst 0 1 0]; pCamera := cam |}.

(** A texture of 4 GiB. *)
Definition hugeTexture : ParsedTexture :=
  {| Format := 1; Width := 32768; Height := 32768;
     Data := replicate (Z.to_nat (2 ^ 32)) x00 |}.

Definition hugeScene : ParsedScene :=
  {| Textures := [hugeTexture]; Meshes := []; MeshInstances := []; pCamera := cam |}.

(** The scene [Compile] returns, when it returns one. *)
Definition compiled (ps : ParsedScene) : Scene :=
  match Compile ps with
  | Returns (Some sc, _) => sc
  | _ => Scene_empty
  end.

(** The compiler state after [bakeTextures], when it returns. *)
Definition baked (ps : ParsedScene) : sceneCompiler :=
  match bakeTextures (mkCompiler ps Scene_empty) with
  | Returns (c, _) => c
  | _ => mkCompiler ps Scene_empty
  end.

End Example.

(** * Properties *)

Section Properties.
Context `{Ty : Types}.

(** ** align4 *)

Lemma int_wrap_small z : - 2 ^ 63 ≤ z < 2 ^ 63 → int_wrap z = z.
Proof. intros H. unfold int_wrap. rewrite Z.mod_small; lia. Qed.

Lemma align4_loop_stop fuel v :
  Z.rem v 4 = 0 → align4_loop (S fuel) v = Some (uint32 v).
Proof. intros Hr. simpl. by rewrite Hr. Qed.

Lemma align4_loop_step fuel v :
  Z.rem v 4 ≠ 0 → align4_loop (S fuel) v = align4_loop fuel (int_wrap (v + 1)).
Proof. intros Hr. simpl. by destruct (Z.eqb_spec (Z.rem v 4) 0). Qed.

(** Incrementing an [int] either stays in range or wraps at the top. *)
Lemma int_wrap_succ v :
  0 ≤ v < 2 ^ 63 →
  (0 ≤ v + 1 < 2 ^ 63 ∧ int_wrap (v + 1) = v + 1)
  ∨ (v + 1 = 2 ^ 63 ∧ int_wrap (v + 1) = - 2 ^ 63).
Proof.
  intros Hv. destruct (decide (v + 1 = 2 ^ 63)) as [E|E].
  - right. split; [done|]. rewrite E. reflexivity.
  - left. rewrite int_wrap_small by lia. lia.
Qed.

Ltac align4_round n H :=
  destruct (decide (Z.rem n 4 = 0)) as [H|H];
  [ rewrite align4_loop_stop by done; simpl; do 2 f_equal;
    unfold pad4; Z.to_euclidean_division_equations; lia
  | rewrite align4_loop_step by done ].

Ltac align4_wrap n Hn Hb :=
  destruct (int_wrap_succ n Hn) as [[Hb ->]|[Etop ->]];
  [ | simpl; unfold uint32, pad4;
      match goal with |- Some _ = Some (?x mod _) =>
        replace x with (2 ^ 63); [reflexivity|Z.to_euclidean_division_equations; lia] end ].

(** The loop in closed form: round up, then truncate to 32 bits.  Four
    iterations always suffice. *)
Lemma align4_loop_closed (n : Z) :
  0 ≤ n < 2 ^ 63 → align4_loop 4 n = Some (uint32 (pad4 n)).
Proof.
  intros Hn.
  align4_round n H0. align4_wrap n Hn Hb1.
  align4_round (n + 1) H1. align4_wrap (n + 1) Hb1 Hb2.
  align4_round (n + 1 + 1) H2. align4_wrap (n + 1 + 1) Hb2 Hb3.
  assert (Z.rem (n + 1 + 1 + 1) 4 = 0) by (Z.to_euclidean_division_equations; lia).
  rewrite align4_loop_stop by done. f_equal. f_equal.
  unfold pad4. Z.to_euclidean_division_equations; lia.
Qed.

Lemma align4_closed (n : Z) :
  0 ≤ n < 2 ^ 63 → align4 n = uint32 (pad4 n).
Proof. intros Hn. unfold align4. by rewrite align4_loop_closed. Qed.

Lemma pad4_bounds n : n ≤ pad4 n < n + 4 ∧ pad4 n mod 4 = 0.
Proof. unfold pad4. Z.to_euclidean_division_equations; lia. Qed.

Lemma len_nonneg {A} (l : list A) : 0 ≤ len l.
Proof. unfold len. lia. Qed.

Lemma fits32_cons tex texs :
  fits32 (tex :: texs) → pad4 (len (Data tex)) < 2 ^ 32 ∧ fits32 texs.
Proof.
  unfold fits32. simpl. intros H.
  assert (0 ≤ foldr (λ tex acc, pad4 (len (Data tex)) + acc) 0 texs).
  { clear. induction texs as [|t r IH]; simpl; [lia|].
    pose proof (pad4_bounds (len (Data t))). pose proof (len_nonneg (Data t)). lia. }
  pose proof (pad4_bounds (len (Data tex))). pose proof (len_nonneg (Data tex)). lia.
Qed.

Lemma align4_fits n : 0 ≤ n → pad4 n < 2 ^ 32 → align4 n = pad4 n.
Proof.
  intros Hn Hp. pose proof (pad4_bounds n).
  rewrite align4_closed by lia. unfold uint32. apply Z.mod_small. lia.
Qed.

(** C9 (amended): for every non-negative [int] n, [align4 n] is a multiple
    of 4 and [align4] is idempotent on it; for n up to 2^32 - 4 it is
    moreover the smallest multiple of 4 that is greater than or equal to n
    (in particular [align4 n >= n]).  Above that bound the conversion of the
    result to [uint32] truncates. *)
Theorem align4_smallest_multiple (n : Z) :
  0 ≤ n < 2 ^ 63 →
  align4 n mod 4 = 0
  ∧ align4 (align4 n) = align4 n
  ∧ (n ≤ 2 ^ 32 - 4 →
       n ≤ align4 n ∧ ∀ m, n ≤ m → m mod 4 = 0 → align4 n ≤ m).
Proof.
  intros Hn. pose proof (pad4_bounds n) as [Hb Hm].
  assert (Ha : align4 n mod 4 = 0 ∧ 0 ≤ align4 n < 2 ^ 32).
  { rewrite align4_closed by done. unfold uint32.
    Z.to_euclidean_division_equations; lia. }
  destruct Ha as [Ha Hr]. split; [done|]. split.
  - rewrite (align4_closed (align4 n)) by lia.
    assert (pad4 (align4 n) = align4 n)
      by (unfold pad4; Z.to_euclidean_division_equations; lia).
    unfold uint32. rewrite H. apply Z.mod_small. lia.
  - intros Hs. rewrite align4_fits by lia. split; [lia|].
    intros m Hle Hmm. unfold pad4 in *. Z.to_euclidean_division_equations; lia.
Qed.

Lemma paddedTotal_fits texs :
  fits32 texs →
  paddedTotal texs = foldr (fun tex acc => pad4 (len (Data tex)) + acc) 0 texs
  ∧ 0 ≤ paddedTotal texs < 2 ^ 32.
Proof.
  induction texs as [|t r IH]; intros Hf.
  - simpl. unfold paddedTotal. simpl. lia.
  - apply fits32_cons in Hf as Hc. destruct Hc as [Ht Hr].
    destruct (IH Hr) as [IH1 IH2]. unfold paddedTotal in *. simpl.
    rewrite align4_fits by (auto using len_nonneg). rewrite IH1. split; [done|].
    unfold fits32 in Hf. simpl in Hf. rewrite <- IH1 in *.
    pose proof (pad4_bounds (len (Data t))). pose proof (len_nonneg (Data t)). lia.
Qed.

Lemma totalDataLen_fits texs : fits32 texs → totalDataLen texs = paddedTotal texs.
Proof.
  intros Hf. unfold totalDataLen.
  assert (G : ∀ acc, 0 ≤ acc → acc + paddedTotal texs < 2 ^ 32 →
            fold_left (fun acc tex => uint32 (acc + align4 (len (Data tex)))) texs acc
            = acc + paddedTotal texs).
  { induction texs as [|t r IH]; intros acc Ha Hb.
    - unfold paddedTotal. simpl. lia.
    - apply fits32_cons in Hf as Hc. destruct Hc as [Ht Hr].
      destruct (paddedTotal_fits _ Hr) as [_ Hr'].
      unfold paddedTotal in *. simpl in *.
      pose proof (align4_fits _ (len_nonneg (Data t)) Ht) as Ea.
      pose proof (pad4_bounds (len (Data t))). pose proof (len_nonneg (Data t)).
      unfold uint32 at 2. rewrite Z.mod_small by lia.
      rewrite IH by (auto; lia). lia. }
  destruct (paddedTotal_fits _ Hf). rewrite G by lia. lia.
Qed.


Lemma store_app_replicate {A} (M : list A) (n : nat) (z x : A) :
  store (M ++ replicate (S n) z) (Z.of_nat (length M)) x
  = Returns ((M ++ [x]) ++ replicate n z).
Proof.
  unfold store, len. rewrite length_app, length_replicate.
  replace ((0 <=? Z.of_nat (length M)) && (Z.of_nat (length M) <? Z.of_nat (length M + S n)))
    with true by (symmetry; apply andb_true_iff; split; [apply Z.leb_le|apply Z.ltb_lt]; lia).
  rewrite Nat2Z.id. f_equal.
  rewrite insert_app_r_alt by lia. rewrite Nat.sub_diag. simpl.
  by rewrite <- app_assoc.
Qed.

Lemma copy_at_app_replicate {A} (P : list A) (k : nat) (z : A) (d : list A) (p : nat) :
  (length d + p ≤ k)%nat →
  copy_at (P ++ replicate k z) (len P) d
  = Returns ((P ++ d ++ replicate p z) ++ replicate (k - length d - p) z).
Proof.
  intros Hk. unfold copy_at, len. rewrite length_app, length_replicate.
  replace ((0 <=? Z.of_nat (length P)) && (Z.of_nat (length P) <=? Z.of_nat (length P + k)))
    with true by (symmetry; apply andb_true_iff; split; apply Z.leb_le; lia).
  rewrite Nat2Z.id. f_equal.
  rewrite take_app_length.
  replace (length P + k - length P)%nat with k by lia.
  rewrite Nat.min_r by lia. rewrite firstn_all.
  rewrite drop_app_ge by lia. rewrite drop_replicate.
  rewrite <- !app_assoc. do 2 f_equal.
  rewrite <- replicate_add. f_equal. lia.
Qed.

Lemma bakeTexture_eq index tex os offset :
  bakeTexture index tex (os, offset) =
  md ← store (TextureMetadataList os) (Z.of_nat index)
         {| tmFormat := Format tex; tmWidth := Width tex;
            tmHeight := Height tex; DataOffset := offset |};
  td ← copy_at (TextureData os) offset (Data tex);
  Returns (with_TextureData (with_TextureMetadata os md) td,
           uint32 (offset + uint32 (align4 (len (Data tex))))).
Proof. reflexivity. Qed.

Lemma bakeTextures_loop (rest : list ParsedTexture) :
  ∀ (P : list byte) (M : list TextureMetadata) (k : nat) (os : Scene),
    TextureData os = P ++ replicate k x00 →
    TextureMetadataList os = M ++ replicate (length rest) zeroMetadata →
    fits32 rest → len P + paddedTotal rest < 2 ^ 32 →
    paddedTotal rest ≤ Z.of_nat k →
    ∃ os', range_loop bakeTexture (length M) rest (os, len P)
             = Returns (os', len P + paddedTotal rest)
      ∧ TextureData os' = P ++ flat_map padTex rest
                            ++ replicate (k - Z.to_nat (paddedTotal rest)) x00
      ∧ TextureMetadataList os' = M ++ metadataFrom (len P) rest.
Proof.
  induction rest as [|tex rest IH]; intros P M k os HP HM Hf Hb Hk.
  - exists os. simpl. unfold paddedTotal. simpl. rewrite Z.add_0_r, Nat.sub_0_r.
    simpl in HM. by rewrite HP, HM.
  - apply fits32_cons in Hf as Hc. destruct Hc as [Ht Hr].
    destruct (paddedTotal_fits _ Hr) as [_ Hr'].
    pose proof (align4_fits _ (len_nonneg (Data tex)) Ht) as Ea.
    pose proof (pad4_bounds (len (Data tex))) as Hpb.
    pose proof (len_nonneg (Data tex)) as Hd. pose proof (len_nonneg P) as HlP.
    assert (Et : paddedTotal (tex :: rest) = align4 (len (Data tex)) + paddedTotal rest)
      by reflexivity.
    rewrite Et in *.
    set (pad := (Z.to_nat (align4 (len (Data tex))) - length (Data tex))%nat).
    assert (Hpad : (length (Data tex) + pad ≤ k)%nat) by (unfold pad, len in *; lia).
    cbn [range_loop]. rewrite bakeTexture_eq. rewrite HM. cbn [length].
    rewrite store_app_replicate. cbn [mbind outcome_bind].
    rewrite HP. rewrite (copy_at_app_replicate _ _ _ _ pad Hpad).
    cbn [mbind outcome_bind].
    set (os1 := with_TextureData _ _).
    set (P1 := P ++ Data tex ++ replicate pad x00).
    assert (HlP1 : len P1 = len P + align4 (len (Data tex))).
    { unfold P1, pad, len in *. rewrite !length_app, length_replicate. lia. }
    replace (uint32 (len P + uint32 (align4 (len (Data tex))))) with (len P1).
    2:{ rewrite HlP1. unfold uint32. rewrite (Z.mod_small (align4 _)) by lia.
        rewrite Z.mod_small by lia. done. }
    set (M1 := M ++ [ {| tmFormat := Format tex; tmWidth := Width tex;
       tmHeight := Height tex; DataOffset := len P |} ]) in *.
    replace (S (length M)) with (length M1) by (unfold M1; rewrite length_app; simpl; lia).
    destruct (IH P1 M1 (k - length (Data tex) - pad)%nat os1) as (os' & Hrun & Htd & Hmd).
    + done.
    + done.
    + done.
    + lia.
    + unfold pad, len in *. lia.
    + exists os'. rewrite Hrun. split; [f_equal; f_equal; lia|]. split.
      * rewrite Htd. unfold P1. cbn [flat_map]. unfold padTex at 2. fold pad.
        rewrite <- !app_assoc. do 4 f_equal. apply (f_equal (fun n => replicate n x00)).
        unfold pad, len in *. lia.
      * rewrite Hmd. unfold M1. cbn [metadataFrom]. rewrite <- app_assoc. simpl.
        by rewrite HlP1.
Qed.


Lemma fits32_app l1 l2 : fits32 (l1 ++ l2) → fits32 l1 ∧ fits32 l2.
Proof.
  induction l1 as [|t l1 IH]; intros H.
  - split; [unfold fits32; simpl; lia|done].
  - simpl in H. destruct (fits32_cons _ _ H) as [Ht Hr].
    destruct (IH Hr) as [H1 H2]. split; [|done].
    destruct (paddedTotal_fits _ H) as [E1 _], (paddedTotal_fits _ H1) as [E2 _],
      (paddedTotal_fits _ Hr) as [E3 _], (paddedTotal_fits _ H2) as [E4 B4].
    unfold fits32 in *. simpl in *. rewrite <- E2, <- E3 in *.
    assert (paddedTotal (l1 ++ l2) = paddedTotal l1 + paddedTotal l2).
    { clear. induction l1; simpl; [unfold paddedTotal; simpl; lia|].
      unfold paddedTotal in *. simpl. lia. }
    lia.
Qed.

Lemma length_padTex tex :
  pad4 (len (Data tex)) < 2 ^ 32 → len (padTex tex) = align4 (len (Data tex)).
Proof.
  intros Ht. pose proof (align4_fits _ (len_nonneg (Data tex)) Ht) as Ea.
  pose proof (pad4_bounds (len (Data tex))).
  unfold padTex, len in *. rewrite length_app, length_replicate. lia.
Qed.

Lemma length_flat_map_padTex texs :
  fits32 texs → len (flat_map padTex texs) = paddedTotal texs.
Proof.
  induction texs as [|t r IH]; intros Hf; [reflexivity|].
  destruct (fits32_cons _ _ Hf) as [Ht Hr]. cbn [flat_map].
  unfold len in *. rewrite length_app. rewrite Nat2Z.inj_add.
  rewrite IH by done. pose proof (length_padTex t Ht) as E. unfold len in E.
  rewrite E. reflexivity.
Qed.

Lemma paddedTotal_mod4 texs : fits32 texs → paddedTotal texs mod 4 = 0.
Proof.
  induction texs as [|t r IH]; intros Hf; [reflexivity|].
  destruct (fits32_cons _ _ Hf) as [Ht Hr].
  unfold paddedTotal in *. simpl. rewrite (align4_fits _ (len_nonneg _) Ht).
  specialize (IH Hr). pose proof (pad4_bounds (len (Data t))).
  Z.to_euclidean_division_equations; lia.
Qed.

Lemma metadataFrom_lookup texs : ∀ offset i tex,
  texs !! i = Some tex →
  metadataFrom offset texs !! i =
    Some {| tmFormat := Format tex; tmWidth := Width tex; tmHeight := Height tex;
            DataOffset := offset + paddedTotal (take i texs) |}.
Proof.
  induction texs as [|t r IH]; intros offset i tex Hi; [done|].
  destruct i as [|i]; simpl in *.
  - inversion Hi; subst. unfold paddedTotal. simpl. by rewrite Z.add_0_r.
  - rewrite (IH _ _ _ Hi). do 2 f_equal. unfold paddedTotal. simpl. lia.
Qed.

Lemma length_metadataFrom texs : ∀ offset, length (metadataFrom offset texs) = length texs.
Proof. induction texs; intros; simpl; [done|]. by rewrite IHtexs. Qed.

Lemma padded_payload texs i tex :
  fits32 texs → texs !! i = Some tex →
  take (length (Data tex))
    (drop (Z.to_nat (paddedTotal (take i texs))) (flat_map padTex texs)) = Data tex.
Proof.
  intros Hf Hi.
  rewrite <- (take_drop_middle texs i tex Hi) in Hf |- * at 2.
  destruct (fits32_app _ _ Hf) as [H1 _].
  rewrite flat_map_app. cbn [flat_map].
  rewrite <- (length_flat_map_padTex _ H1). unfold len. rewrite Nat2Z.id.
  rewrite drop_app_length. unfold padTex at 1. rewrite <- app_assoc.
  by rewrite take_app_length.
Qed.

(** C5 (amended): provided the padded payloads fit the 32-bit offsets (their
    rounded-up lengths total less than 2^32), [bakeTextures] returns with a
    nil error and, for every input texture in original order, the metadata
    entry keeps format, width and height, its [DataOffset] is the sum of
    [align4] of the preceding payload lengths (a multiple of 4), the buffer
    length is the sum over all textures, and the payload is recovered by
    slicing at the offset; payload lengths [3, 5, 8] give offsets [0, 4, 12]
    and a buffer of 20 bytes. *)
Theorem bakeTextures_layout (sc : sceneCompiler) :
  let texs := Textures (parsedScene sc) in
  fits32 texs →
  ∃ os,
    bakeTextures sc = Returns (mkCompiler (parsedScene sc) os, None)
    ∧ len (TextureData os) = paddedTotal texs
    ∧ length (TextureMetadataList os) = length texs
    ∧ (∀ i tex, texs !! i = Some tex →
        ∃ md, TextureMetadataList os !! i = Some md
          ∧ tmFormat md = Format tex ∧ tmWidth md = Width tex ∧ tmHeight md = Height tex
          ∧ DataOffset md = paddedTotal (take i texs)
          ∧ DataOffset md mod 4 = 0
          ∧ take (length (Data tex)) (drop (Z.to_nat (DataOffset md)) (TextureData os))
            = Data tex)
    ∧ (map (fun t => len (Data t)) texs = [3; 5; 8] →
         map DataOffset (TextureMetadataList os) = [0; 4; 12]
         ∧ len (TextureData os) = 20).
Proof.
  intros texs Hf.
  destruct (paddedTotal_fits _ Hf) as [_ Hb].
  unfold bakeTextures. fold texs. rewrite (totalDataLen_fits _ Hf).
  set (os0 := with_TextureMetadata _ _).
  destruct (bakeTextures_loop texs [] [] (Z.to_nat (paddedTotal texs)) os0)
    as (os & Hrun & Htd & Hmd); try done.
  { change (len []) with 0. lia. }
  { lia. }
  change (length []) with 0%nat in Hrun. change (len []) with 0 in Hrun, Hmd.
  rewrite Hrun. cbn [mbind outcome_bind]. exists os.
  rewrite Nat.sub_diag in Htd. simpl in Htd, Hmd. rewrite app_nil_r in Htd.
  assert (Hlen : len (TextureData os) = paddedTotal texs)
    by (rewrite Htd; by apply length_flat_map_padTex).
  assert (Hoff : ∀ i tex, texs !! i = Some tex →
     ∃ md, TextureMetadataList os !! i = Some md
          ∧ tmFormat md = Format tex ∧ tmWidth md = Width tex ∧ tmHeight md = Height tex
          ∧ DataOffset md = paddedTotal (take i texs)).
  { intros i tex Hi. rewrite Hmd, (metadataFrom_lookup _ _ _ _ Hi). eauto 10. }
  split; [done|]. split; [done|]. split; [by rewrite Hmd, length_metadataFrom|].
  split.
  - intros i tex Hi. destruct (Hoff i tex Hi) as (md & Hl & E1 & E2 & E3 & E4).
    exists md. repeat (split; [done|]). rewrite E4. split.
    + rewrite <- (take_drop i texs) in Hf. apply fits32_app in Hf as [H1 _].
      by apply paddedTotal_mod4.
    + rewrite Htd. by apply padded_payload.
  - intros Hl. rewrite Hlen, Hmd. clear -Hl.
    destruct texs as [|t1 [|t2 [|t3 [|]]]]; try done.
    simpl in Hl. injection Hl as E1 E2 E3. unfold paddedTotal. simpl.
    rewrite E1, E2, E3. done.
Qed.


(** A single texture whose padded length truncates to 0 leaves the buffer
    empty. *)
Lemma bakeTextures_truncated (sc : sceneCompiler) (tex : ParsedTexture) :
  Textures (parsedScene sc) = [tex] → align4 (len (Data tex)) = 0 →
  ∃ os, bakeTextures sc = Returns (mkCompiler (parsedScene sc) os, None)
     ∧ TextureData os = []
     ∧ map DataOffset (TextureMetadataList os) = [0].
Proof.
  intros Ht Ha. unfold bakeTextures. rewrite Ht. unfold totalDataLen.
  cbn [fold_left length]. rewrite Ha. change (Z.to_nat (uint32 (0 + 0))) with 0%nat.
  cbn [replicate range_loop]. rewrite bakeTexture_eq.
  cbn [TextureMetadataList with_TextureMetadata TextureData with_TextureData]. rewrite Ha.
  unfold store, copy_at. cbn -[Z.to_nat Z.pow]. eexists. split; [reflexivity|].
  split; reflexivity.
Qed.

Lemma bakeTextures_unrecoverable (sc : sceneCompiler) (tex : ParsedTexture) :
  Textures (parsedScene sc) = [tex] → len (Data tex) = 2 ^ 32 →
  ∃ os md,
    bakeTextures sc = Returns (mkCompiler (parsedScene sc) os, None)
    ∧ TextureMetadataList os !! 0%nat = Some md
    ∧ take (length (Data tex)) (drop (Z.to_nat (DataOffset md)) (TextureData os))
      ≠ Data tex.
Proof.
  intros Ht Hl.
  destruct (bakeTextures_truncated sc tex Ht) as (os & Hrun & Htd & Hmd).
  { rewrite Hl. reflexivity. }
  destruct (TextureMetadataList os) as [|md [|]] eqn:E; try discriminate Hmd.
  exists os, md. split; [exact Hrun|]. split; [by rewrite E|].
  rewrite Htd, drop_nil, take_nil. intros Hnil.
  apply (f_equal len) in Hnil. rewrite Hl in Hnil. discriminate Hnil.
Qed.

(** ** The outcome monad *)

Lemma bind_Returns {A B} (m : outcome A) (f : A → outcome B) (b : B) :
  m ≫= f = Returns b → ∃ a, m = Returns a ∧ f a = Returns b.
Proof. destruct m; simpl; intros H; try discriminate. eauto. Qed.

Lemma terminates_bind {A B} (m : outcome A) (f : A → outcome B) :
  terminates m → (∀ a, m = Returns a → terminates (f a)) → terminates (m ≫= f).
Proof. unfold terminates. destruct m; simpl; intros H1 H2; [by apply H2|done|done]. Qed.

Lemma terminates_Returns {A} (a : A) : terminates (Returns a).
Proof. done. Qed.

Lemma terminates_Panics {A} : terminates (@Panics A).
Proof. done. Qed.

Lemma terminates_range_loop {A St} (body : nat → A → St → outcome St) l :
  (∀ i x s, terminates (body i x s)) →
  ∀ i s, terminates (range_loop body i l s).
Proof.
  intros Hb. induction l as [|x l IH]; intros i s; simpl; [done|].
  apply terminates_bind; [apply Hb|]. intros; apply IH.
Qed.

Lemma terminates_store {A} (s : list A) i x : terminates (store s i x).
Proof. unfold store. by destruct (_ && _). Qed.

Lemma terminates_load {A} (s : list A) i : terminates (load s i).
Proof. unfold load. destruct (_ && _); [|done]. by destruct (s !! _). Qed.

(** What a successful store says. *)
Lemma store_Returns {A} (s s' : list A) i x :
  store s i x = Returns s' →
  0 ≤ i < len s ∧ s' = <[Z.to_nat i := x]> s.
Proof.
  unfold store. destruct (0 <=? i) eqn:E1; simpl; [|done].
  destruct (i <? len s) eqn:E2; [|done]. intros [= <-].
  apply Z.leb_le in E1. apply Z.ltb_lt in E2. done.
Qed.

Lemma load_Returns {A} (s : list A) i x :
  load s i = Returns x → 0 ≤ i < len s ∧ s !! Z.to_nat i = Some x.
Proof.
  unfold load. destruct (0 <=? i) eqn:E1; simpl; [|done].
  destruct (i <? len s) eqn:E2; [|done].
  apply Z.leb_le in E1. apply Z.ltb_lt in E2.
  destruct (s !! Z.to_nat i); [|done]. by intros [= ->].
Qed.

(** ** The BVH builder *)

Lemma insertByCenter_perm {V} {BV : BoundedVolume V} a (x : V) l :
  insertByCenter a x l ≡ₚ x :: l.
Proof.
  induction l as [|y l IH]; simpl; [done|].
  destruct (f32_leb _ _); [done|]. rewrite IH. apply Permutation_swap.
Qed.

Lemma sortByCenter_perm {V} {BV : BoundedVolume V} a (l : list V) :
  sortByCenter a l ≡ₚ l.
Proof.
  unfold sortByCenter. induction l as [|x l IH]; simpl; [done|].
  rewrite insertByCenter_perm. by rewrite IH.
Qed.

Lemma splitByMedian_perm {V} {BV : BoundedVolume V} a (l : list V) :
  (splitByMedian a l).1 ++ (splitByMedian a l).2 ≡ₚ l.
Proof. unfold splitByMedian. cbn [fst snd]. rewrite take_drop. apply sortByCenter_perm. Qed.

Lemma splitByMedian_length {V} {BV : BoundedVolume V} a (l : list V) :
  length (splitByMedian a l).1 = (length l / 2)%nat
  ∧ length (splitByMedian a l).2 = (length l - length l / 2)%nat.
Proof.
  unfold splitByMedian. cbn [fst snd].
  pose proof (Permutation_length (sortByCenter_perm a l)) as E.
  rewrite length_take, length_drop, E.
  assert (length l / 2 ≤ length l)%nat by (apply Nat.Div0.div_le_upper_bound; lia).
  lia.
Qed.

Lemma leafNodes_app (l1 l2 : list BvhNode) :
  leafNodes (l1 ++ l2) = leafNodes l1 ++ leafNodes l2.
Proof.
  induction l1 as [|n l1 IH]; simpl; [done|].
  destruct (NData n); simpl; by rewrite IH.
Qed.

Lemma LeafRun_app {V St} (cb : BvhNode → list V → St → outcome (BvhNode * St))
    st1 run1 st2 run2 st3 :
  LeafRun cb st1 run1 st2 → LeafRun cb st2 run2 st3 → LeafRun cb st1 (run1 ++ run2) st3.
Proof.
  induction 1 as [|st node wl node' st' run st2 Hn Hcb Hrun IH]; intros H2; simpl; [done|].
  econstructor; eauto.
Qed.

Lemma buildNodes_S {V St} {BV : BoundedVolume V} fuel (T : Z)
    (cb : BvhNode → list V → St → outcome (BvhNode * St)) wl base st :
  buildNodes (S fuel) T cb wl base st =
  let box := bboxOf wl in
  let node := mkBvhNode box.1 box.2 NoData in
  if len wl <=? T then
    '(node', st') ← cb node wl st; Returns ([node'], st')
  else
    let halves := splitByMedian (longestAxis box) wl in
    '(lnodes, st1) ← buildNodes fuel T cb halves.1 (base + 1) st;
    '(rnodes, st2) ← buildNodes fuel T cb halves.2 (base + 1 + len lnodes) st1;
    Returns (SetChildNodes node (base + 1) (base + 1 + len lnodes) :: lnodes ++ rnodes, st2).
Proof. reflexivity. Qed.

(** The builder invokes the callback once per leaf, in array order, on
    sub-lists that together are a permutation of the input; the state is
    threaded through these invocations only. *)
Lemma buildNodes_run {V St} {BV : BoundedVolume V} (T : Z)
    (cb : BvhNode → list V → St → outcome (BvhNode * St)) :
  leafOnly cb →
  ∀ fuel wl base st nodes st',
    buildNodes fuel T cb wl base st = Returns (nodes, st') →
    ∃ run, LeafRun cb st run st'
      ∧ concat run.*1 ≡ₚ wl
      ∧ leafNodes nodes = run.*2.
Proof.
  intros Hleaf. induction fuel as [|fuel IH]; intros wl base st nodes st' Hb; [done|].
  simpl in Hb. destruct (len wl <=? T).
  - apply bind_Returns in Hb as ([node' st1] & Hcb & [= <- <-]).
    exists [(wl, node')]. split; [|split].
    + econstructor; [|exact Hcb|constructor]. done.
    + simpl. by rewrite app_nil_r.
    + simpl. pose proof (fun E => Hleaf _ _ _ _ _ E Hcb) as Hn. specialize (Hn eq_refl). unfold notInternal in Hn.
      by destruct (NData node').
  - apply bind_Returns in Hb as ([ln st1] & Hl & Hb).
    apply bind_Returns in Hb as ([rn st2] & Hr & [= <- <-]).
    destruct (IH _ _ _ _ _ Hl) as (run1 & R1 & P1 & L1).
    destruct (IH _ _ _ _ _ Hr) as (run2 & R2 & P2 & L2).
    exists (run1 ++ run2). split; [|split].
    + eapply LeafRun_app; eauto.
    + rewrite fmap_app, concat_app, P1, P2. apply splitByMedian_perm.
    + simpl. by rewrite leafNodes_app, L1, L2, fmap_app.
Qed.

(** The array of a call is not empty and, as long as positions fit 32
    bits, its child indices point into the array itself. *)
Lemma buildNodes_children {V St} {BV : BoundedVolume V} (T : Z)
    (cb : BvhNode → list V → St → outcome (BvhNode * St)) :
  leafOnly cb →
  ∀ fuel wl base st nodes st',
    buildNodes fuel T cb wl base st = Returns (nodes, st') →
    0 < len nodes
    ∧ (0 ≤ base → base + len nodes ≤ 2 ^ 32 →
       Forall (childrenIn base (base + len nodes)) nodes).
Proof.
  intros Hleaf. induction fuel as [|fuel IH]; intros wl base st nodes st' Hb; [done|].
  simpl in Hb. destruct (len wl <=? T).
  - apply bind_Returns in Hb as ([node' st1] & Hcb & [= <- <-]).
    split; [unfold len; simpl; lia|]. intros _ _. constructor; [|done].
    pose proof (fun E => Hleaf _ _ _ _ _ E Hcb) as Hn. specialize (Hn eq_refl). unfold notInternal, childrenIn in *.
    by destruct (NData node').
  - apply bind_Returns in Hb as ([ln st1] & Hl & Hb).
    apply bind_Returns in Hb as ([rn st2] & Hr & [= <- <-]).
    destruct (IH _ _ _ _ _ Hl) as (N1 & C1).
    destruct (IH _ _ _ _ _ Hr) as (N2 & C2).
    assert (El : len (SetChildNodes
              {| Min := (bboxOf wl).1; Max := (bboxOf wl).2; NData := NoData |}
              (base + 1) (base + 1 + len ln) :: ln ++ rn) = 1 + len ln + len rn).
    { unfold len. simpl. rewrite length_app. lia. }
    rewrite El. split; [lia|]. intros Hb0 Hfit. constructor.
    + unfold childrenIn, SetChildNodes, uint32. simpl.
      rewrite !Z.mod_small by lia. lia.
    + apply Forall_app. split.
      * eapply Forall_impl; [apply C1; lia|]. intros n. unfold childrenIn.
        destruct (NData n); lia.
      * eapply Forall_impl; [apply C2; lia|]. intros n. unfold childrenIn.
        destruct (NData n); lia.
Qed.

(** With a threshold of at least one volume per leaf the recursion bottoms
    out: each half of a split is shorter than the list. *)
Lemma buildNodes_terminates {V St} {BV : BoundedVolume V} (T : Z)
    (cb : BvhNode → list V → St → outcome (BvhNode * St)) :
  1 ≤ T → (∀ node wl st, terminates (cb node wl st)) →
  ∀ fuel wl base st,
    (length wl < fuel)%nat → terminates (buildNodes fuel T cb wl base st).
Proof.
  intros HT Hcb. induction fuel as [|fuel IH]; intros wl base st Hf; [lia|].
  rewrite buildNodes_S. cbv zeta. destruct (Z.leb_spec (len wl) T) as [Hle|Hgt].
  - apply terminates_bind; [apply Hcb|]. by intros [].
  - destruct (splitByMedian_length (longestAxis (bboxOf wl)) wl) as [E1 E2].
    assert (2 ≤ length wl)%nat by (unfold len in Hgt; lia).
    assert (length wl / 2 < length wl)%nat by (apply Nat.div_lt; lia).
    assert (0 < length wl / 2)%nat by (apply Nat.div_str_pos; lia).
    apply terminates_bind; [apply IH; lia|]. intros [ln st1] _.
    apply terminates_bind; [apply IH; lia|]. by intros [].
Qed.

(** ** The leaf callbacks *)

Lemma store_next {A} (P : list A) (k : nat) (z x : A) (i : Z) s' :
  store (P ++ replicate k z) i x = Returns s' → i = len P →
  (0 < k)%nat ∧ s' = (P ++ [x]) ++ replicate (k - 1) z.
Proof.
  intros Hs ->. apply store_Returns in Hs as [Hr ->].
  unfold len in *. rewrite length_app, length_replicate in Hr.
  split; [lia|]. rewrite Nat2Z.id.
  rewrite insert_app_r_alt by lia. rewrite Nat.sub_diag.
  destruct k as [|k]; [lia|]. simpl. rewrite Nat.sub_0_r. by rewrite <- app_assoc.
Qed.

Lemma len_app {A} (l1 l2 : list A) : len (l1 ++ l2) = len l1 + len l2.
Proof. unfold len. rewrite length_app. lia. Qed.

Lemma uint32_small z : 0 ≤ z < 2 ^ 32 → uint32 z = z.
Proof. intros H. unfold uint32. by apply Z.mod_small. Qed.

Lemma copyPrimitive_eq (prim : ParsedPrimitive) (g : geomState) :
  copyPrimitive prim g =
  let os := gScene g in
  let vo := vertexOffset g in
  vl ← store (VertexList os) (uint32 (vo + 0)) (Vec3_Vec4 (at0 (Vertices prim)) f32_zero);
  vl ← store vl (uint32 (vo + 1)) (Vec3_Vec4 (at1 (Vertices prim)) f32_zero);
  vl ← store vl (uint32 (vo + 2)) (Vec3_Vec4 (at2 (Vertices prim)) f32_zero);
  nl ← store (NormalList os) (uint32 (vo + 0)) (Vec3_Vec4 (at0 (Normals prim)) f32_zero);
  nl ← store nl (uint32 (vo + 1)) (Vec3_Vec4 (at1 (Normals prim)) f32_zero);
  nl ← store nl (uint32 (vo + 2)) (Vec3_Vec4 (at2 (Normals prim)) f32_zero);
  ul ← store (UvList os) (uint32 (vo + 0)) (at0 (UVs prim));
  ul ← store ul (uint32 (vo + 1)) (at1 (UVs prim));
  ml ← store (MaterialIndexList os) (primOffset g) (MaterialIndex prim);
  Returns (mkGeom
    (with_MaterialIndex (with_UvList (with_NormalList (with_VertexList os vl) nl) ul) ml)
    (uint32 (vo + 3)) (uint32 (primOffset g + 1))).
Proof. reflexivity. Qed.

(** The nine stores of a successful [copyPrimitive]. *)
Lemma copyPrimitive_Returns (prim : ParsedPrimitive) (g g' : geomState) :
  copyPrimitive prim g = Returns g' →
  ∃ v1 v2 v3 n1 n2 n3 u1 u2 m1,
    store (VertexList (gScene g)) (uint32 (vertexOffset g + 0))
      (Vec3_Vec4 (at0 (Vertices prim)) f32_zero) = Returns v1
    ∧ store v1 (uint32 (vertexOffset g + 1))
        (Vec3_Vec4 (at1 (Vertices prim)) f32_zero) = Returns v2
    ∧ store v2 (uint32 (vertexOffset g + 2))
        (Vec3_Vec4 (at2 (Vertices prim)) f32_zero) = Returns v3
    ∧ store (NormalList (gScene g)) (uint32 (vertexOffset g + 0))
        (Vec3_Vec4 (at0 (Normals prim)) f32_zero) = Returns n1
    ∧ store n1 (uint32 (vertexOffset g + 1))
        (Vec3_Vec4 (at1 (Normals prim)) f32_zero) = Returns n2
    ∧ store n2 (uint32 (vertexOffset g + 2))
        (Vec3_Vec4 (at2 (Normals prim)) f32_zero) = Returns n3
    ∧ store (UvList (gScene g)) (uint32 (vertexOffset g + 0)) (at0 (UVs prim)) = Returns u1
    ∧ store u1 (uint32 (vertexOffset g + 1)) (at1 (UVs prim)) = Returns u2
    ∧ store (MaterialIndexList (gScene g)) (primOffset g) (MaterialIndex prim) = Returns m1
    ∧ g' = mkGeom
        (with_MaterialIndex
           (with_UvList (with_NormalList (with_VertexList (gScene g) v3) n3) u2) m1)
        (uint32 (vertexOffset g + 3)) (uint32 (primOffset g + 1)).
Proof.
  rewrite copyPrimitive_eq. cbv zeta. intros H.
  apply bind_Returns in H as (v1 & S1 & H). apply bind_Returns in H as (v2 & S2 & H).
  apply bind_Returns in H as (v3 & S3 & H). apply bind_Returns in H as (n1 & S4 & H).
  apply bind_Returns in H as (n2 & S5 & H). apply bind_Returns in H as (n3 & S6 & H).
  apply bind_Returns in H as (u1 & S7 & H). apply bind_Returns in H as (u2 & S8 & H).
  apply bind_Returns in H as (m1 & S9 & H). injection H as <-.
  exists v1, v2, v3, n1, n2, n3, u1, u2, m1. done.
Qed.

Lemma copyPrimitive_layout (prim : ParsedPrimitive) (g g' : geomState) Av An Au Am kv km :
  geomLayout g Av An Au Am kv km →
  vertexOffset g + 3 < 2 ^ 32 →
  copyPrimitive prim g = Returns g' →
  (3 ≤ kv)%nat ∧ (1 ≤ km)%nat
  ∧ geomLayout g' (Av ++ promVertices prim) (An ++ promNormals prim)
      (Au ++ writtenUVs prim) (Am ++ [MaterialIndex prim]) (kv - 3) (km - 1).
Proof.
  intros (EV & EN & EU & EM & LV & LN & LU & LM & E3) Hfit Hc.
  pose proof (len_nonneg Am) as Hpo. rewrite LM in Hpo.
  apply copyPrimitive_Returns in Hc
    as (v1 & v2 & v3 & n1 & n2 & n3 & u1 & u2 & m1
        & S1 & S2 & S3 & S4 & S5 & S6 & S7 & S8 & S9 & ->).
  rewrite !uint32_small in * by lia.
  rewrite EV in S1. apply store_next in S1 as [K1 ->]; [|lia].
  apply store_next in S2 as [K2 ->]; [|rewrite len_app; unfold len at 2; simpl; lia].
  apply store_next in S3 as [K3 ->];
    [|rewrite !len_app; unfold len at 2 3; simpl; lia].
  rewrite EN in S4. apply store_next in S4 as [_ ->]; [|lia].
  apply store_next in S5 as [_ ->]; [|rewrite len_app; unfold len at 2; simpl; lia].
  apply store_next in S6 as [_ ->];
    [|rewrite !len_app; unfold len at 2 3; simpl; lia].
  rewrite EU in S7. apply store_next in S7 as [_ ->]; [|lia].
  apply store_next in S8 as [_ ->]; [|rewrite len_app; unfold len at 2; simpl; lia].
  rewrite EM in S9. apply store_next in S9 as [K9 ->]; [|lia].
  split; [lia|]. split; [lia|].
  unfold geomLayout, promVertices, promNormals, writtenUVs. simpl.
  rewrite <- !app_assoc. simpl.
  replace (kv - 1 - 1 - 1)%nat with (kv - 3)%nat by lia.
  replace (kv - 1 - 1)%nat with (S (kv - 3)) by lia. simpl.
  rewrite !len_app. unfold len in *. simpl.
  repeat split; try done; lia.
Qed.

Lemma geomShape_refl s : geomShape s s.
Proof. unfold geomShape. tauto. Qed.

Lemma geomShape_trans s1 s2 s3 : geomShape s1 s2 → geomShape s2 s3 → geomShape s1 s3.
Proof. unfold geomShape. intros (?&?&?&?&?&?) (?&?&?&?&?&?). repeat split; try congruence; tauto. Qed.

Lemma sameOutside_refl s : sameOutside s s.
Proof. unfold sameOutside. tauto. Qed.

Lemma sameOutside_trans s1 s2 s3 : sameOutside s1 s2 → sameOutside s2 s3 → sameOutside s1 s3.
Proof. unfold sameOutside. intros (?&?&?&?&?) (?&?&?&?&?). repeat split; congruence. Qed.

Lemma zeroW_Vec3_Vec4 (v : Vec3) : v4w (Vec3_Vec4 v f32_zero) = f32_zero.
Proof. reflexivity. Qed.

(** Whatever the cursors are, a successful [copyPrimitive] keeps the buffer
    lengths, writes vertex and normal entries whose 4th component is zero,
    and touches nothing else. *)
Lemma copyPrimitive_shape (prim : ParsedPrimitive) (g g' : geomState) :
  copyPrimitive prim g = Returns g' →
  geomShape (gScene g) (gScene g') ∧ sameOutside (gScene g) (gScene g').
Proof.
  intros Hc. apply copyPrimitive_Returns in Hc
    as (v1 & v2 & v3 & n1 & n2 & n3 & u1 & u2 & m1
        & S1 & S2 & S3 & S4 & S5 & S6 & S7 & S8 & S9 & ->).
  apply store_Returns in S1 as [_ ->], S2 as [_ ->], S3 as [_ ->], S4 as [_ ->],
    S5 as [_ ->], S6 as [_ ->], S7 as [_ ->], S8 as [_ ->], S9 as [_ ->].
  split; [|done]. unfold geomShape, zeroW. simpl. rewrite !length_insert.
  repeat split; try done; intros H; repeat apply Forall_insert; done.
Qed.

Lemma range_loop_ext_index {A St} (body : A → St → outcome St) l :
  ∀ i j s, range_loop (fun _ => body) i l s = range_loop (fun _ => body) j l s.
Proof.
  induction l as [|x l IH]; intros i j s; simpl; [done|].
  destruct (body x s); simpl; [apply IH|done|done].
Qed.

Lemma copyLoop_shape (wl : list ParsedPrimitive) :
  ∀ i g g', range_loop (fun _ => copyPrimitive) i wl g = Returns g' →
    geomShape (gScene g) (gScene g') ∧ sameOutside (gScene g) (gScene g').
Proof.
  induction wl as [|prim wl IH]; intros i g g' H; simpl in H.
  - injection H as <-. split; [apply geomShape_refl|apply sameOutside_refl].
  - apply bind_Returns in H as (g1 & H1 & H2).
    apply copyPrimitive_shape in H1 as [A1 B1]. apply IH in H2 as [A2 B2].
    split; [eapply geomShape_trans|eapply sameOutside_trans]; eauto.
Qed.

Lemma geomLayout_counts g Av An Au Am kv km kv' km' :
  geomLayout g Av An Au Am kv km → kv = kv' → km = km' →
  geomLayout g Av An Au Am kv' km'.
Proof. by intros H <- <-. Qed.

Lemma copyLoop_layout (wl : list ParsedPrimitive) :
  ∀ i g g' Av An Au Am kv km,
    geomLayout g Av An Au Am kv km →
    vertexOffset g + 3 * len wl < 2 ^ 32 →
    range_loop (fun _ => copyPrimitive) i wl g = Returns g' →
    (3 * length wl ≤ kv)%nat ∧ (length wl ≤ km)%nat
    ∧ geomLayout g' (Av ++ flat_map promVertices wl) (An ++ flat_map promNormals wl)
        (Au ++ flat_map writtenUVs wl) (Am ++ map MaterialIndex wl)
        (kv - 3 * length wl) (km - length wl).
Proof.
  induction wl as [|prim wl IH]; intros i g g' Av An Au Am kv km HL Hfit H; simpl in H.
  - injection H as <-. simpl. rewrite !app_nil_r, !Nat.sub_0_r.
    split; [lia|]. split; [lia|done].
  - apply bind_Returns in H as (g1 & H1 & H2).
    assert (Hlen : len (prim :: wl) = 1 + len wl) by (unfold len; simpl; lia).
    pose proof (len_nonneg wl). rewrite Hlen in Hfit.
    destruct (copyPrimitive_layout _ _ _ _ _ _ _ _ _ HL ltac:(lia) H1) as (K1 & K2 & HL1).
    assert (Hvo : vertexOffset g1 = vertexOffset g + 3).
    { destruct HL as (_&_&_&_&LV&_), HL1 as (_&_&_&_&LV1&_).
      rewrite <- LV1, <- LV, len_app. reflexivity. }
    destruct (IH _ _ _ _ _ _ _ _ _ HL1 ltac:(lia) H2) as (K3 & K4 & HL2).
    cbn [length flat_map map]. split; [lia|]. split; [lia|].
    rewrite <- !app_assoc in HL2.
    eapply geomLayout_counts; [exact HL2|lia|lia].
Qed.

Lemma meshLeafCb_Returns node wl g node' g' :
  meshLeafCb node wl g = Returns (node', g') →
  node' = SetPrimitives node (primOffset g) (uint32 (len wl))
  ∧ range_loop (fun _ => copyPrimitive) 0 wl g = Returns g'.
Proof.
  unfold meshLeafCb. intros H. apply bind_Returns in H as (g1 & H1 & [= <- <-]). done.
Qed.

Lemma meshLeafCb_leafOnly : leafOnly meshLeafCb.
Proof. intros node wl g node' g' _ H. apply meshLeafCb_Returns in H as [-> _]. done. Qed.

Lemma terminates_copyPrimitive prim g : terminates (copyPrimitive prim g).
Proof.
  rewrite copyPrimitive_eq. cbv zeta.
  repeat (apply terminates_bind; [apply terminates_store|intros ? _]). done.
Qed.

Lemma terminates_meshLeafCb node wl g : terminates (meshLeafCb node wl g).
Proof.
  unfold meshLeafCb. apply terminates_bind; [|done].
  apply terminates_range_loop. intros; apply terminates_copyPrimitive.
Qed.

Lemma instanceLeafCb_leafOnly ps : leafOnly (instanceLeafCb ps).
Proof.
  intros node wl st node' st' Hn H. unfold instanceLeafCb in H.
  apply bind_Returns in H as (pmi & _ & [= <- <-]).
  destruct (list_find _ _) as [[]|]; [done|]. unfold notInternal. by rewrite Hn.
Qed.

Lemma terminates_instanceLeafCb ps node wl st : terminates (instanceLeafCb ps node wl st).
Proof. unfold instanceLeafCb. apply terminates_bind; [apply terminates_load|done]. Qed.

(** ** One mesh-level build *)

Lemma primRanges_app (l1 l2 : list BvhNode) :
  primRanges (l1 ++ l2) = primRanges l1 ++ primRanges l2.
Proof.
  induction l1 as [|n l1 IH]; simpl; [done|]. destruct (NData n); simpl; by rewrite IH.
Qed.

Lemma primRanges_leafNodes (nodes : list BvhNode) :
  primRanges (leafNodes nodes) = primRanges nodes.
Proof.
  induction nodes as [|n l IH]; simpl; [done|].
  destruct (NData n) eqn:E; simpl; rewrite ?E; by rewrite IH.
Qed.

Lemma primRanges_offset (nodes : list BvhNode) offset :
  primRanges (map (fun n => OffsetChildNodes n offset) nodes) = primRanges nodes.
Proof.
  induction nodes as [|n l IH]; simpl; [done|]. unfold OffsetChildNodes at 1.
  destruct (NData n) eqn:E; simpl; rewrite ?E; by rewrite IH.
Qed.

Lemma chain_app cur r1 mid r2 stop :
  chain cur r1 mid → chain mid r2 stop → chain cur (r1 ++ r2) stop.
Proof.
  revert cur. induction r1 as [|[o c] r1 IH]; intros cur H1 H2; simpl in *.
  - by subst.
  - destruct H1 as (-> & Hc & H1). eauto.
Qed.

Lemma meshRun_shape run g g' :
  LeafRun meshLeafCb g run g' →
  geomShape (gScene g) (gScene g') ∧ sameOutside (gScene g) (gScene g').
Proof.
  induction 1 as [|g node wl node' g1 run g2 Hn Hcb Hrun IH].
  - split; [apply geomShape_refl|apply sameOutside_refl].
  - apply meshLeafCb_Returns in Hcb as [_ Hl]. apply copyLoop_shape in Hl as [A1 B1].
    destruct IH as [A2 B2].
    split; [eapply geomShape_trans|eapply sameOutside_trans]; eauto.
Qed.

Lemma meshRun_layout run g g' :
  LeafRun meshLeafCb g run g' →
  ∀ Av An Au Am kv km,
    geomLayout g Av An Au Am kv km →
    vertexOffset g + 3 * len (concat run.*1) < 2 ^ 32 →
    (3 * length (concat run.*1) ≤ kv)%nat ∧ (length (concat run.*1) ≤ km)%nat
    ∧ geomLayout g' (Av ++ flat_map promVertices (concat run.*1))
        (An ++ flat_map promNormals (concat run.*1))
        (Au ++ flat_map writtenUVs (concat run.*1))
        (Am ++ map MaterialIndex (concat run.*1))
        (kv - 3 * length (concat run.*1)) (km - length (concat run.*1))
    ∧ chain (primOffset g) (primRanges run.*2) (primOffset g').
Proof.
  induction 1 as [g|g node wl node' g1 run g2 Hn Hcb Hrun IH];
    intros Av An Au Am kv km HL Hfit.
  - simpl. rewrite !app_nil_r, !Nat.sub_0_r. split; [lia|]. split; [lia|done].
  - apply meshLeafCb_Returns in Hcb as [-> Hl].
    cbn [fmap list_fmap fst snd concat] in *. rewrite len_app in Hfit.
    pose proof (len_nonneg wl). pose proof (len_nonneg (concat run.*1)).
    destruct (copyLoop_layout wl 0%nat g g1 Av An Au Am kv km HL) as (K1 & K2 & HL1);
      [lia|exact Hl|].
    assert (Hpo : 0 ≤ primOffset g ∧ vertexOffset g = 3 * primOffset g
                  ∧ vertexOffset g1 = vertexOffset g + 3 * len wl
                  ∧ primOffset g1 = primOffset g + len wl).
    { destruct HL as (_&_&_&_&LV&_&_&LM&E3), HL1 as (_&_&_&_&LV1&_&_&LM1&E31).
      pose proof (len_nonneg Am). rewrite len_app in LM1.
      unfold len in LM1 at 2. rewrite length_map in LM1. fold (len wl) in LM1. lia. }
    destruct Hpo as (P0 & P1 & P2 & P3).
    destruct (IH _ _ _ _ _ _ HL1) as (K3 & K4 & HL2 & Hch); [lia|].
    rewrite !length_app. split; [lia|]. split; [lia|]. split.
    + rewrite !flat_map_app, !map_app, !app_assoc. rewrite <- !app_assoc in HL2.
      rewrite <- !app_assoc.
      eapply geomLayout_counts; [exact HL2|lia|lia].
    + simpl. rewrite !uint32_small by (rewrite ?uint32_small; lia).
      split; [done|]. split; [lia|]. by rewrite <- P3.
Qed.

Lemma meshBvh_run (pm : ParsedMesh) g nodes g' :
  BuildBVH (Primitives pm) minPrimitivesPerLeaf meshLeafCb g = Returns (nodes, g') →
  ∃ run, LeafRun meshLeafCb g run g'
    ∧ concat run.*1 ≡ₚ Primitives pm
    ∧ primRanges nodes = primRanges run.*2.
Proof.
  intros H. unfold BuildBVH in H.
  destruct (buildNodes_run _ _ meshLeafCb_leafOnly _ _ _ _ _ _ H) as (run & R & P & L).
  exists run. repeat split; try done. by rewrite <- L, primRanges_leafNodes.
Qed.

Lemma meshBvh_valid (pm : ParsedMesh) g nodes g' :
  BuildBVH (Primitives pm) minPrimitivesPerLeaf meshLeafCb g = Returns (nodes, g') →
  0 < len nodes ∧ (len nodes ≤ 2 ^ 32 → locallyValid nodes).
Proof.
  intros H. unfold BuildBVH in H.
  destruct (buildNodes_children _ _ meshLeafCb_leafOnly _ _ _ _ _ _ H) as [N C].
  split; [done|]. intros Hl. apply C; lia.
Qed.

Lemma partitionMesh_Returns mIndex pm g roots g' roots' :
  partitionMesh mIndex pm (g, roots) = Returns (g', roots') →
  ∃ nodes g1,
    BuildBVH (Primitives pm) minPrimitivesPerLeaf meshLeafCb g = Returns (nodes, g1)
    ∧ store roots (Z.of_nat mIndex) (uint32 (int32 (len (BvhNodeList (gScene g1)))))
      = Returns roots'
    ∧ g' = mkGeom
        (with_BvhNodeList (gScene g1)
           (BvhNodeList (gScene g1)
              ++ map (fun n => OffsetChildNodes n (int32 (len (BvhNodeList (gScene g1)))))
                   nodes))
        (vertexOffset g1) (primOffset g1).
Proof.
  unfold partitionMesh. intros H.
  apply bind_Returns in H as ([nodes g1] & H1 & H).
  apply bind_Returns in H as (r & H2 & [= <- <-]). eauto.
Qed.

(** ** The loop over the meshes *)

Lemma partitionMesh_shape mIndex pm g roots g' roots' :
  partitionMesh mIndex pm (g, roots) = Returns (g', roots') →
  geomShape (gScene g) (gScene g')
  ∧ TextureData (gScene g') = TextureData (gScene g)
  ∧ TextureMetadataList (gScene g') = TextureMetadataList (gScene g)
  ∧ MeshInstanceList (gScene g') = MeshInstanceList (gScene g)
  ∧ oCamera (gScene g') = oCamera (gScene g).
Proof.
  intros H. apply partitionMesh_Returns in H as (nodes & g1 & Hb & _ & ->).
  apply meshBvh_run in Hb as (run & R & _ & _).
  apply meshRun_shape in R as [A (B1 & B2 & B3 & B4 & B5)]. simpl.
  split; [exact A|done].
Qed.

Lemma meshLoop_shape meshes :
  ∀ i g roots g' roots',
    range_loop partitionMesh i meshes (g, roots) = Returns (g', roots') →
    geomShape (gScene g) (gScene g')
    ∧ TextureData (gScene g') = TextureData (gScene g)
    ∧ TextureMetadataList (gScene g') = TextureMetadataList (gScene g)
    ∧ MeshInstanceList (gScene g') = MeshInstanceList (gScene g)
    ∧ oCamera (gScene g') = oCamera (gScene g).
Proof.
  induction meshes as [|pm meshes IH]; intros i g roots g' roots' H; simpl in H.
  - injection H as <- <-. split; [apply geomShape_refl|done].
  - apply bind_Returns in H as ([g1 roots1] & H1 & H2).
    apply partitionMesh_shape in H1 as (A1 & B1 & C1 & D1 & E1).
    apply IH in H2 as (A2 & B2 & C2 & D2 & E2).
    split; [eapply geomShape_trans; eauto|]. repeat split; congruence.
Qed.

Lemma countPrimitives_cons pm meshes :
  countPrimitives (pm :: meshes) = len (Primitives pm) + countPrimitives meshes.
Proof. reflexivity. Qed.

Lemma countPrimitives_nonneg meshes : 0 ≤ countPrimitives meshes.
Proof.
  induction meshes as [|pm l IH]; [done|]. rewrite countPrimitives_cons.
  pose proof (len_nonneg (Primitives pm)). lia.
Qed.

Lemma countPrimitives_flat_map meshes :
  len (flat_map Primitives meshes) = countPrimitives meshes.
Proof.
  induction meshes as [|pm l IH]; [done|]. rewrite countPrimitives_cons. simpl.
  rewrite len_app. lia.
Qed.

(** Without overflow of the cursors, the meshes are flattened one after the
    other, each in the order its leaves are finished, and the leaf ranges of
    the appended nodes are adjacent. *)
Lemma meshLoop_layout meshes :
  ∀ i g roots g' roots' Av An Au Am kv km,
    range_loop partitionMesh i meshes (g, roots) = Returns (g', roots') →
    geomLayout g Av An Au Am kv km →
    vertexOffset g + 3 * countPrimitives meshes < 2 ^ 32 →
    ∃ order news,
      order ≡ₚ flat_map Primitives meshes
      ∧ (3 * length order ≤ kv)%nat ∧ (length order ≤ km)%nat
      ∧ geomLayout g' (Av ++ flat_map promVertices order)
          (An ++ flat_map promNormals order)
          (Au ++ flat_map writtenUVs order)
          (Am ++ map MaterialIndex order)
          (kv - 3 * length order) (km - length order)
      ∧ BvhNodeList (gScene g') = BvhNodeList (gScene g) ++ news
      ∧ chain (primOffset g) (primRanges news) (primOffset g').
Proof.
  induction meshes as [|pm meshes IH];
    intros i g roots g' roots' Av An Au Am kv km H HL Hfit; simpl in H.
  - injection H as <- <-. exists [], []. simpl. rewrite !app_nil_r, !Nat.sub_0_r.
    split; [done|]. split; [lia|]. split; [lia|]. split; [exact HL|]. done.
  - apply bind_Returns in H as ([g1 roots1] & H1 & H2).
    apply partitionMesh_Returns in H1 as (nodes & g0 & Hb & _ & ->).
    apply meshBvh_run in Hb as (run & R & P & Epr).
    rewrite countPrimitives_cons in Hfit.
    pose proof (countPrimitives_nonneg meshes) as Hcn.
    assert (El : len (concat run.*1) = len (Primitives pm))
      by (unfold len; by rewrite (Permutation_length P)).
    destruct (meshRun_layout _ _ _ R _ _ _ _ _ _ HL) as (K1 & K2 & HL1 & Hch); [lia|].
    destruct (meshRun_shape _ _ _ R) as [_ (_ & _ & EB & _)].
    set (g1 := mkGeom _ _ _) in H2.
    assert (HL1' : geomLayout g1 (Av ++ flat_map promVertices (concat run.*1))
        (An ++ flat_map promNormals (concat run.*1))
        (Au ++ flat_map writtenUVs (concat run.*1))
        (Am ++ map MaterialIndex (concat run.*1))
        (kv - 3 * length (concat run.*1)) (km - length (concat run.*1))) by exact HL1.
    assert (Hvo : vertexOffset g1 = vertexOffset g + 3 * len (Primitives pm)).
    { destruct HL as (_&_&_&_&LV&_), HL1 as (_&_&_&_&LV1&_). simpl.
      rewrite <- LV1, <- LV, <- El, len_app. f_equal. unfold len.
      clear. induction (concat run.*1) as [|p l IH]; [done|]. simpl length. lia. }
    destruct (IH _ _ _ _ _ _ _ _ _ _ _ H2 HL1') as
      (order & news & P2 & K3 & K4 & HL2 & EB2 & Hch2); [lia|].
    exists (concat run.*1 ++ order),
      (map (fun n => OffsetChildNodes n (int32 (len (BvhNodeList (gScene g0))))) nodes
         ++ news).
    split; [simpl; by rewrite P, P2|].
    rewrite !length_app. split; [lia|]. split; [lia|]. split; [|split].
    + rewrite !flat_map_app, !map_app, !app_assoc. rewrite <- !app_assoc in HL2.
      rewrite <- !app_assoc. eapply geomLayout_counts; [exact HL2|lia|lia].
    + rewrite EB2. simpl. rewrite EB. by rewrite <- app_assoc.
    + rewrite primRanges_app, primRanges_offset, Epr.
      eapply chain_app; [exact Hch|exact Hch2].
Qed.

Lemma mergeCode_cons top loc locals :
  mergeCode top (loc :: locals)
  = mergeCode (top ++ map (fun n => OffsetChildNodes n (int32 (len top))) loc) locals.
Proof. reflexivity. Qed.

(** The node list after the loop is the merge of the arrays of the
    mesh-level builds, none of them empty, and the recorded roots are the
    lengths of the list at the time of each merge. *)
Lemma meshLoop_bvh meshes :
  ∀ i g roots R g' roots',
    roots = R ++ replicate (length meshes) 0 → length R = i →
    range_loop partitionMesh i meshes (g, roots) = Returns (g', roots') →
    ∃ locals,
      meshArrays meshes locals
      ∧ Forall (fun loc => 0 < len loc ∧ (len loc ≤ 2 ^ 32 → locallyValid loc)) locals
      ∧ BvhNodeList (gScene g') = mergeCode (BvhNodeList (gScene g)) locals
      ∧ roots' = R ++ rootsFrom (BvhNodeList (gScene g)) locals.
Proof.
  induction meshes as [|pm meshes IH]; intros i g roots R g' roots' -> Hi H; simpl in H.
  - injection H as <- <-. exists []. split; [constructor|]. split; [constructor|].
    split; [done|]. simpl. by rewrite app_nil_r.
  - apply bind_Returns in H as ([g1 roots1] & H1 & H2).
    apply partitionMesh_Returns in H1 as (nodes & g0 & Hb & Hs & ->).
    pose proof (meshBvh_valid _ _ _ _ Hb) as Hv.
    destruct (meshBvh_run _ _ _ _ Hb) as (run & Rn & _ & _).
    destruct (meshRun_shape _ _ _ Rn) as [_ (_ & _ & EB & _)].
    change (0 :: replicate (length meshes) 0)
      with (replicate (S (length meshes)) 0) in Hs.
    apply store_next in Hs as [_ ->]; [|unfold len; lia].
    replace (S (length meshes) - 1)%nat with (length meshes) in H2 by lia.
    edestruct (IH (S i)) as (locals & MA & FV & EBL & ER); [reflexivity| |exact H2|].
    { rewrite length_app. simpl. lia. }
    exists (nodes :: locals). split; [|split; [|split]].
    + constructor; [eauto|exact MA].
    + by constructor.
    + rewrite EBL. simpl. rewrite EB. reflexivity.
    + rewrite ER. simpl. rewrite EB. by rewrite <- app_assoc.
Qed.

(** ** Merging the node arrays *)

Lemma int32_small z : 0 ≤ z < 2 ^ 31 → int32 z = z.
Proof. intros H. unfold int32. rewrite Z.mod_small; lia. Qed.

Lemma mergeCode_app top l1 l2 :
  mergeCode top (l1 ++ l2) = mergeCode (mergeCode top l1) l2.
Proof. unfold mergeCode. apply fold_left_app. Qed.

Lemma mergeAll_app top l1 l2 :
  mergeAll top (l1 ++ l2) = mergeAll (mergeAll top l1) l2.
Proof. unfold mergeAll. apply fold_left_app. Qed.

Lemma mergeCode_prefix locals : ∀ top, ∃ suffix, mergeCode top locals = top ++ suffix.
Proof.
  induction locals as [|loc locals IH]; intros top.
  - exists []. simpl. by rewrite app_nil_r.
  - rewrite mergeCode_cons. destruct (IH (top ++ map (fun n => OffsetChildNodes n
      (int32 (len top))) loc)) as [suffix ->]. rewrite <- app_assoc. eauto.
Qed.

Lemma mergeCode_len_le top locals : len top ≤ len (mergeCode top locals).
Proof.
  destruct (mergeCode_prefix locals top) as [suffix ->]. rewrite len_app.
  pose proof (len_nonneg suffix). lia.
Qed.

Lemma mergeCode_take_le top locals k :
  len (mergeCode top (take k locals)) ≤ len (mergeCode top locals).
Proof.
  rewrite <- (take_drop k locals) at 2. rewrite mergeCode_app. apply mergeCode_len_le.
Qed.

Lemma len_map {A B} (f : A → B) l : len (map f l) = len l.
Proof. unfold len. by rewrite length_map. Qed.

(** Below 2^31 nodes, the code's offsetting of a locally valid node is the
    rebasing of the spec, and the rebased indices point into the block the
    node is appended with. *)
Lemma OffsetChildNodes_rebase (n : BvhNode) (o hi : Z) :
  0 ≤ o → 0 ≤ hi → o + hi < 2 ^ 31 → childrenIn 0 hi n →
  OffsetChildNodes n (int32 o) = rebase o n ∧ childrenIn o (o + hi) (rebase o n).
Proof.
  intros Ho Hh Hb Hc. rewrite int32_small by lia.
  unfold OffsetChildNodes, rebase, childrenIn in *. destruct (NData n) eqn:E; rewrite ?E; try done.
  simpl. rewrite !uint32_small by lia. split; [done|lia].
Qed.

Lemma map_Offset_rebase (l : list BvhNode) (o hi : Z) :
  0 ≤ o → 0 ≤ hi → o + hi < 2 ^ 31 → Forall (childrenIn 0 hi) l →
  map (fun n => OffsetChildNodes n (int32 o)) l = map (rebase o) l
  ∧ Forall (childrenIn o (o + hi)) (map (rebase o) l).
Proof.
  intros Ho Hh Hb. induction 1 as [|n l Hn Hl [E1 E2]]; [split; [done|constructor]|].
  destruct (OffsetChildNodes_rebase n o hi) as [E3 E4]; [done..|].
  simpl. rewrite E1, E3. split; [done|]. by constructor.
Qed.

Lemma childrenIn_weaken lo hi lo' hi' n :
  lo' ≤ lo → hi ≤ hi' → childrenIn lo hi n → childrenIn lo' hi' n.
Proof. unfold childrenIn. destruct (NData n); lia. Qed.

Lemma mergeCode_valid locals :
  ∀ top,
    Forall (fun loc => 0 < len loc ∧ (len loc ≤ 2 ^ 32 → locallyValid loc)) locals →
    len (mergeCode top locals) < 2 ^ 31 →
    mergeCode top locals = mergeAll top locals
    ∧ Forall locallyValid locals
    ∧ (locallyValid top → locallyValid (mergeCode top locals)).
Proof.
  induction locals as [|loc locals IH]; intros top HF Hlen.
  - split; [done|]. split; [constructor|done].
  - inversion HF as [|? ? [Hpos Hv] HF']; subst. rewrite mergeCode_cons in *.
    pose proof (mergeCode_len_le (top ++ map (fun n => OffsetChildNodes n
      (int32 (len top))) loc) locals) as Hle.
    rewrite len_app, len_map in Hle. pose proof (len_nonneg top) as Ht.
    specialize (Hv ltac:(lia)).
    assert (Emap : map (fun n => OffsetChildNodes n (int32 (len top))) loc
                   = map (rebase (len top)) loc
                 ∧ Forall (childrenIn (len top) (len top + len loc))
                     (map (rebase (len top)) loc)).
    { apply map_Offset_rebase; [lia|lia|lia|exact Hv]. }
    destruct Emap as [Emap Hblock]. rewrite Emap in *.
    destruct (IH _ HF' Hlen) as (E & FV & V).
    split; [exact E|]. split; [by constructor|].
    intros Vtop. apply V. unfold locallyValid. rewrite len_app, len_map.
    apply Forall_app. split.
    + eapply Forall_impl; [exact Vtop|]. intros n. apply childrenIn_weaken; lia.
    + eapply Forall_impl; [exact Hblock|]. intros n. apply childrenIn_weaken; lia.
Qed.

Lemma rootsFrom_lookup locals :
  ∀ top k loc, locals !! k = Some loc →
    rootsFrom top locals !! k
    = Some (uint32 (int32 (len (mergeCode top (take k locals))))).
Proof.
  induction locals as [|l locals IH]; intros top k loc Hk; [done|].
  destruct k as [|k]; simpl in *; [done|]. by rewrite (IH _ _ _ Hk).
Qed.

Lemma length_rootsFrom locals : ∀ top, length (rootsFrom top locals) = length locals.
Proof. induction locals as [|l locals IH]; intros top; simpl; [done|]. by rewrite IH. Qed.

(** The first node of the k-th array sits, rebased, at the length the list
    had when the array was merged. *)
Lemma mergeCode_lookup_root top locals k loc root :
  locals !! k = Some loc → loc !! 0%nat = Some root →
  mergeCode top locals !! length (mergeCode top (take k locals))
  = Some (OffsetChildNodes root (int32 (len (mergeCode top (take k locals))))).
Proof.
  intros Hk Hr.
  replace (mergeCode top locals)
    with (mergeCode top (take k locals ++ loc :: drop (S k) locals))
    by (by rewrite take_drop_middle).
  rewrite mergeCode_app, mergeCode_cons.
  set (M := mergeCode top (take k locals)).
  destruct (mergeCode_prefix (drop (S k) locals)
              (M ++ map (fun n => OffsetChildNodes n (int32 (len M))) loc)) as [suffix ->].
  rewrite <- app_assoc. rewrite lookup_app_r by lia. rewrite Nat.sub_diag.
  destruct loc as [|r loc]; [done|]. simpl in *. by injection Hr as ->.
Qed.

(** ** The loop over the instances *)

Lemma processInstance_Returns roots index pmi os os' :
  processInstance roots index pmi os = Returns os' →
  ∃ root mil,
    load roots (MeshIndex pmi) = Returns root
    ∧ store (MeshInstanceList os) (Z.of_nat index)
        {| oMeshIndex := MeshIndex pmi; BvhRoot := root;
           oTransform := Mat4_Inv (Transform pmi) |} = Returns mil
    ∧ os' = with_MeshInstanceList os mil.
Proof.
  unfold processInstance. intros H.
  apply bind_Returns in H as (root & H1 & H). apply bind_Returns in H as (mil & H2 & H).
  injection H as <-. eauto.
Qed.

Lemma instanceLoop_Returns roots insts :
  ∀ i os M os',
    MeshInstanceList os = M ++ replicate (length insts) zeroInstance → length M = i →
    range_loop (processInstance roots) i insts os = Returns os' →
    ∃ new, os' = with_MeshInstanceList os (M ++ new)
      ∧ Forall2 (instanceOf roots) insts new.
Proof.
  induction insts as [|pmi insts IH]; intros i os M os' HM Hi H; simpl in H.
  - injection H as <-. exists []. split; [|constructor].
    simpl in HM. rewrite app_nil_r in *. rewrite <- HM. by destruct os.
  - apply bind_Returns in H as (os1 & H1 & H2).
    apply processInstance_Returns in H1 as (root & mil & Hl & Hs & ->).
    apply load_Returns in Hl as [Hr Hl]. rewrite HM in Hs.
    apply store_next in Hs as [_ ->]; [|unfold len; lia].
    replace (length (pmi :: insts) - 1)%nat with (length insts) in H2 by (simpl; lia).
    edestruct (IH (S i)) as (new & E & F2); [| |exact H2|].
    { reflexivity. }
    { rewrite length_app. simpl. lia. }
    exists ({| oMeshIndex := MeshIndex pmi; BvhRoot := root;
               oTransform := Mat4_Inv (Transform pmi) |} :: new). split.
    + rewrite E. unfold with_MeshInstanceList. simpl. by rewrite <- app_assoc.
    + constructor; [|exact F2]. done.
Qed.

(** ** The instance-level build *)

Lemma instanceRun_primRanges ps run st st' :
  LeafRun (instanceLeafCb ps) st run st' → primRanges run.*2 = [].
Proof.
  induction 1 as [|st node wl node' st1 run st2 Hn Hcb Hrun IH]; [done|].
  unfold instanceLeafCb in Hcb. apply bind_Returns in Hcb as (pmi & _ & [= <- <-]).
  simpl. destruct (list_find _ _) as [[]|]; simpl; [done|]. by rewrite Hn.
Qed.

Lemma instanceBvh_facts ps top u :
  BuildBVH (MeshInstances ps) 1 (instanceLeafCb ps) () = Returns (top, u) →
  0 < len top ∧ (len top ≤ 2 ^ 32 → locallyValid top) ∧ primRanges top = [].
Proof.
  intros H. unfold BuildBVH in H.
  destruct (buildNodes_children _ _ (instanceLeafCb_leafOnly ps) _ _ _ _ _ _ H) as [N C].
  destruct (buildNodes_run _ _ (instanceLeafCb_leafOnly ps) _ _ _ _ _ _ H)
    as (run & R & _ & L).
  split; [done|]. split; [intros Hl; apply C; lia|].
  rewrite <- primRanges_leafNodes, L. eapply instanceRun_primRanges; eauto.
Qed.

(** ** The stages *)

Lemma bakeTextures_Returns sc sc' e :
  bakeTextures sc = Returns (sc', e) → e = None ∧ parsedScene sc' = parsedScene sc.
Proof.
  unfold bakeTextures. intros H. apply bind_Returns in H as ([os off] & _ & H).
  by injection H as <- <-.
Qed.

Lemma setupCamera_Returns sc sc' e :
  setupCamera sc = Returns (sc', e) →
  e = None ∧ parsedScene sc' = parsedScene sc
  ∧ ∃ cam, optimizedScene sc' = with_Camera (optimizedScene sc) cam.
Proof. unfold setupCamera. cbv zeta. intros [= <- <-]. eauto. Qed.

Lemma partitionGeometry_Returns sc sc' e :
  partitionGeometry sc = Returns (sc', e) →
  let ps := parsedScene sc in
  e = None ∧ parsedScene sc' = ps
  ∧ ∃ top u g roots,
      BuildBVH (MeshInstances ps) 1 (instanceLeafCb ps) () = Returns (top, u)
      ∧ range_loop partitionMesh 0 (Meshes ps)
          (mkGeom (allocGeometry (optimizedScene sc) top (totalVertices ps)) 0 0,
           replicate (length (Meshes ps)) 0) = Returns (g, roots)
      ∧ range_loop (processInstance roots) 0 (MeshInstances ps)
          (with_MeshInstanceList (gScene g)
             (replicate (length (MeshInstances ps)) zeroInstance))
        = Returns (optimizedScene sc').
Proof.
  unfold partitionGeometry. cbv zeta. intros H.
  apply bind_Returns in H as ([top u] & H1 & H).
  apply bind_Returns in H as ([g roots] & H2 & H).
  apply bind_Returns in H as (os & H3 & H). injection H as <- <-.
  split; [done|]. split; [done|]. exists top, u, g, roots. done.
Qed.

Lemma Compile_Returns ps r e :
  Compile ps = Returns (r, e) →
  e = None
  ∧ ∃ c1 c2 cam,
      bakeTextures (mkCompiler ps Scene_empty) = Returns (c1, None)
      ∧ parsedScene c1 = ps
      ∧ partitionGeometry c1 = Returns (c2, None)
      ∧ parsedScene c2 = ps
      ∧ r = Some (with_Camera (optimizedScene c2) cam).
Proof.
  unfold Compile. intros H.
  apply bind_Returns in H as ([c1 e1] & H1 & H).
  destruct (bakeTextures_Returns _ _ _ H1) as [-> P1].
  apply bind_Returns in H as ([c2 e2] & H2 & H).
  destruct (partitionGeometry_Returns _ _ _ H2) as (-> & P2 & _).
  apply bind_Returns in H as ([c3 e3] & H3 & H).
  destruct (setupCamera_Returns _ _ _ H3) as (-> & P3 & cam & Ec).
  injection H as <- <-. split; [done|]. exists c1, c2, cam.
  rewrite Ec. repeat split; try done. by rewrite P2.
Qed.

(** ** The primitive cursor alone *)

Lemma copyLoop_prim (wl : list ParsedPrimitive) :
  ∀ i g g', 0 ≤ primOffset g → primOffset g + len wl < 2 ^ 32 →
    range_loop (fun _ => copyPrimitive) i wl g = Returns g' →
    primOffset g' = primOffset g + len wl.
Proof.
  induction wl as [|prim wl IH]; intros i g g' H0 Hfit H; simpl in H.
  - injection H as <-. unfold len. simpl. lia.
  - apply bind_Returns in H as (g1 & H1 & H2).
    assert (Hlen : len (prim :: wl) = 1 + len wl) by (unfold len; simpl; lia).
    pose proof (len_nonneg wl). rewrite Hlen in *.
    apply copyPrimitive_Returns in H1
      as (v1 & v2 & v3 & n1 & n2 & n3 & u1 & u2 & m1 & _ & _ & _ & _ & _ & _ & _ & _ & _ & ->).
    apply IH in H2; simpl in *; rewrite ?uint32_small in * by lia; lia.
Qed.

Lemma meshRun_chain run g g' :
  LeafRun meshLeafCb g run g' →
  0 ≤ primOffset g → primOffset g + len (concat run.*1) < 2 ^ 32 →
  chain (primOffset g) (primRanges run.*2) (primOffset g')
  ∧ primOffset g' = primOffset g + len (concat run.*1).
Proof.
  induction 1 as [g|g node wl node' g1 run g2 Hn Hcb Hrun IH]; intros H0 Hfit.
  - simpl. unfold len. simpl. lia.
  - apply meshLeafCb_Returns in Hcb as [-> Hl].
    cbn [fmap list_fmap fst snd concat] in *. rewrite len_app in *.
    pose proof (len_nonneg wl). pose proof (len_nonneg (concat run.*1)).
    apply copyLoop_prim in Hl; [|lia|lia].
    destruct IH as [Hch E]; [lia|lia|]. split; [|lia].
    simpl. rewrite !uint32_small by (rewrite ?uint32_small; lia).
    split; [done|]. split; [lia|]. by rewrite <- Hl.
Qed.

(** As long as the primitive cursor does not wrap, the leaf ranges of the
    nodes the loop appends are adjacent and end where the cursor ends. *)
Lemma meshLoop_chain meshes :
  ∀ i g roots g' roots',
    range_loop partitionMesh i meshes (g, roots) = Returns (g', roots') →
    0 ≤ primOffset g → primOffset g + countPrimitives meshes < 2 ^ 32 →
    ∃ news,
      BvhNodeList (gScene g') = BvhNodeList (gScene g) ++ news
      ∧ chain (primOffset g) (primRanges news) (primOffset g')
      ∧ primOffset g' = primOffset g + countPrimitives meshes.
Proof.
  induction meshes as [|pm meshes IH]; intros i g roots g' roots' H H0 Hfit; simpl in H.
  - injection H as <- <-. exists []. rewrite app_nil_r. simpl.
    change (countPrimitives []) with 0. split; [done|]. split; lia.
  - apply bind_Returns in H as ([g1 roots1] & H1 & H2).
    apply partitionMesh_Returns in H1 as (nodes & g0 & Hb & _ & ->).
    apply meshBvh_run in Hb as (run & R & P & Epr).
    rewrite countPrimitives_cons in *.
    pose proof (countPrimitives_nonneg meshes) as Hcn.
    pose proof (len_nonneg (Primitives pm)) as Hpn.
    assert (El : len (concat run.*1) = len (Primitives pm))
      by (unfold len; by rewrite (Permutation_length P)).
    destruct (meshRun_chain _ _ _ R) as [Hch E]; [lia|lia|].
    destruct (meshRun_shape _ _ _ R) as [_ (_ & _ & EB & _)].
    apply IH in H2 as (news & EB2 & Hch2 & E2); simpl in *; [|lia|lia].
    exists (map (fun n => OffsetChildNodes n (int32 (len (BvhNodeList (gScene g0))))) nodes
              ++ news).
    split; [|split].
    + rewrite EB2, EB. by rewrite <- app_assoc.
    + rewrite primRanges_app, primRanges_offset, Epr.
      eapply chain_app; [exact Hch|exact Hch2].
    + lia.
Qed.

(** ** The compiled scene *)

Lemma totalVertices_eq ps : totalVertices ps = 3 * totalPrimitives ps.
Proof.
  unfold totalVertices, totalPrimitives.
  assert (G : ∀ l acc,
    fold_left (fun acc pm => acc + 3 * len (Primitives pm)) l acc
    = acc + 3 * countPrimitives l).
  { induction l as [|pm l IH]; intros acc; cbn [fold_left].
    - change (countPrimitives []) with 0. lia.
    - rewrite IH, countPrimitives_cons. lia. }
  rewrite G. lia.
Qed.

(** What a compiled scene is made of: the instance-level array, the state
    the loop over the meshes ends in, and the instances. *)
Lemma Compile_parts ps sc :
  Compile ps = Returns (Some sc, None) →
  ∃ os top u g roots new cam,
    BuildBVH (MeshInstances ps) 1 (instanceLeafCb ps) () = Returns (top, u)
    ∧ range_loop partitionMesh 0 (Meshes ps)
        (mkGeom (allocGeometry os top (totalVertices ps)) 0 0,
         replicate (length (Meshes ps)) 0) = Returns (g, roots)
    ∧ Forall2 (instanceOf roots) (MeshInstances ps) new
    ∧ sc = with_Camera (with_MeshInstanceList (gScene g) new) cam.
Proof.
  intros H. apply Compile_Returns in H as (_ & c1 & c2 & cam & _ & P1 & H2 & _ & [= ->]).
  apply partitionGeometry_Returns in H2 as (_ & _ & top & u & g & roots & Hb & Hm & Hi).
  rewrite P1 in *.
  apply (instanceLoop_Returns roots _ 0%nat _ []) in Hi as (new & -> & F2); [|done..].
  exists (optimizedScene c1), top, u, g, roots, new, cam. done.
Qed.

Lemma allocGeometry_layout os top tv total :
  tv = 3 * total → 0 ≤ total →
  geomLayout (mkGeom (allocGeometry os top tv) 0 0) [] [] [] []
    (Z.to_nat tv) (Z.to_nat total).
Proof.
  intros -> Ht. unfold geomLayout, allocGeometry. simpl.
  rewrite Z.mul_comm, Z.quot_mul by lia. done.
Qed.

Lemma to_nat_primitives (l : list ParsedPrimitive) total :
  len l = total → (Z.to_nat (3 * total) - 3 * length l = 0)%nat
                  ∧ (Z.to_nat total - length l = 0)%nat.
Proof. unfold len. lia. Qed.

(** C7: in every compiled scene the vertex, normal and UV lists have three
    entries per primitive and the material list one (two meshes of 2 and 3
    triangles give 15 and 5); every vertex and normal entry has a zero 4th
    component, and, the vertex cursor not wrapping, the two lists hold the
    vertices and normals of the primitives promoted to 4 components, three
    consecutive slots per primitive, in the order the leaves are finished. *)
Theorem compiled_geometry_lists ps sc :
  Compile ps = Returns (Some sc, None) →
  len (VertexList sc) = 3 * totalPrimitives ps
  ∧ len (NormalList sc) = 3 * totalPrimitives ps
  ∧ len (UvList sc) = 3 * totalPrimitives ps
  ∧ len (MaterialIndexList sc) = totalPrimitives ps
  ∧ zeroW (VertexList sc) ∧ zeroW (NormalList sc)
  ∧ (3 * totalPrimitives ps < 2 ^ 32 →
       ∃ order, order ≡ₚ allPrimitives ps
         ∧ VertexList sc = flat_map promVertices order
         ∧ NormalList sc = flat_map promNormals order
         ∧ MaterialIndexList sc = map MaterialIndex order)
  ∧ (map (fun pm => len (Primitives pm)) (Meshes ps) = [2; 3] →
       len (VertexList sc) = 15 ∧ len (MaterialIndexList sc) = 5).
Proof.
  intros H. apply Compile_parts in H as (os & top & u & g & roots & new & cam & _ & Hm & _ & ->).
  pose proof (countPrimitives_nonneg (Meshes ps)) as Hn. fold (totalPrimitives ps) in Hn.
  pose proof (totalVertices_eq ps) as Etv.
  destruct (meshLoop_shape _ _ _ _ _ _ Hm) as [(L1 & L2 & L3 & L4 & Z1 & Z2) _].
  simpl in L1, L2, L3, L4, Z1, Z2. rewrite !length_replicate in *.
  rewrite Etv in *. rewrite Z.mul_comm, Z.quot_mul in L4 by lia.
  change (VertexList (with_Camera (with_MeshInstanceList (gScene g) new) cam))
    with (VertexList (gScene g)).
  change (NormalList (with_Camera (with_MeshInstanceList (gScene g) new) cam))
    with (NormalList (gScene g)).
  change (UvList (with_Camera (with_MeshInstanceList (gScene g) new) cam))
    with (UvList (gScene g)).
  change (MaterialIndexList (with_Camera (with_MeshInstanceList (gScene g) new) cam))
    with (MaterialIndexList (gScene g)).
  assert (E1 : len (VertexList (gScene g)) = 3 * totalPrimitives ps) by (unfold len; lia).
  assert (E4 : len (MaterialIndexList (gScene g)) = totalPrimitives ps) by (unfold len; lia).
  split; [done|]. split; [unfold len; lia|]. split; [unfold len; lia|]. split; [done|].
  split; [apply Z1, Forall_replicate; done|]. split; [apply Z2, Forall_replicate; done|].
  split.
  - intros Hfit.
    destruct (meshLoop_layout _ _ _ _ _ _ [] [] [] [] _ _ Hm
                (allocGeometry_layout os top _ _ eq_refl Hn))
      as (order & news & P & _ & _ & (EV & EN & _ & EM & _) & _);
      [unfold totalPrimitives in Hfit; cbn [vertexOffset]; lia|].
    assert (El : len order = totalPrimitives ps).
    { unfold len. rewrite (Permutation_length P). apply countPrimitives_flat_map. }
    destruct (to_nat_primitives _ _ El) as [K1 K2].
    rewrite K1 in *. rewrite K2 in *. simpl in EV, EN, EM. rewrite app_nil_r in *.
    exists order. done.
  - intros Hex. rewrite E1, E4. unfold totalPrimitives.
    destruct (Meshes ps) as [|m1 [|m2 [|]]]; try done.
    injection Hex as X1 X2. rewrite !countPrimitives_cons, X1, X2. done.
Qed.

(** C2: in every compiled scene whose primitive cursor does not wrap, the
    primitive ranges recorded on the mesh-level leaves, in the order the
    leaves are finished (their order in the node list), are adjacent: the
    first starts at 0, each starts where the previous one ends, and the last
    ends at the total primitive count. *)
Theorem leaf_ranges_partition ps sc :
  Compile ps = Returns (Some sc, None) →
  totalPrimitives ps < 2 ^ 32 →
  chain 0 (primRanges (BvhNodeList sc)) (totalPrimitives ps).
Proof.
  intros H Hfit.
  apply Compile_parts in H as (os & top & u & g & roots & new & cam & Hb & Hm & _ & ->).
  change (BvhNodeList (with_Camera (with_MeshInstanceList (gScene g) new) cam))
    with (BvhNodeList (gScene g)).
  destruct (instanceBvh_facts _ _ _ Hb) as (_ & _ & Etop).
  destruct (meshLoop_chain _ _ _ _ _ _ Hm) as (news & EB & Hch & E);
    [simpl; lia|simpl; exact Hfit|].
  cbn [gScene primOffset BvhNodeList allocGeometry] in EB, Hch, E.
  change (BvhNodeList (allocGeometry os top (totalVertices ps))) with top in EB.
  rewrite EB, primRanges_app, Etop. cbn [app].
  unfold totalPrimitives. replace (countPrimitives (Meshes ps)) with (primOffset g) by lia.
  exact Hch.
Qed.

(** The UV list of a compiled scene: per primitive, the UVs of its first
    two vertices and the zero value of the allocation. *)
Lemma compiled_uv_list ps sc :
  Compile ps = Returns (Some sc, None) →
  3 * totalPrimitives ps < 2 ^ 32 →
  ∃ order, order ≡ₚ allPrimitives ps ∧ UvList sc = flat_map writtenUVs order.
Proof.
  intros H Hfit.
  apply Compile_parts in H as (os & top & u & g & roots & new & cam & _ & Hm & _ & ->).
  pose proof (countPrimitives_nonneg (Meshes ps)) as Hn. fold (totalPrimitives ps) in Hn.
  rewrite totalVertices_eq in Hm.
  destruct (meshLoop_layout _ _ _ _ _ _ [] [] [] [] _ _ Hm
              (allocGeometry_layout os top _ _ eq_refl Hn))
    as (order & news & P & _ & _ & (_ & _ & EU & _) & _);
    [unfold totalPrimitives in Hfit; cbn [vertexOffset]; lia|].
  assert (El : len order = totalPrimitives ps).
  { unfold len. rewrite (Permutation_length P). apply countPrimitives_flat_map. }
  destruct (to_nat_primitives _ _ El) as [K1 _].
  rewrite K1 in EU. simpl in EU. rewrite app_nil_r in EU. exists order. done.
Qed.

(** The node list of a compiled scene: the instance-level array followed by
    the arrays of the mesh-level builds as the code merges them, and the
    instances with the roots the code records. *)
Lemma Compile_bvh ps sc :
  Compile ps = Returns (Some sc, None) →
  ∃ top u locals,
    BuildBVH (MeshInstances ps) 1 (instanceLeafCb ps) () = Returns (top, u)
    ∧ meshArrays (Meshes ps) locals
    ∧ Forall (fun loc => 0 < len loc ∧ (len loc ≤ 2 ^ 32 → locallyValid loc)) locals
    ∧ BvhNodeList sc = mergeCode top locals
    ∧ Forall2 (instanceOf (rootsFrom top locals)) (MeshInstances ps) (MeshInstanceList sc).
Proof.
  intros H.
  apply Compile_parts in H as (os & top & u & g & roots & new & cam & Hb & Hm & F2 & ->).
  apply (meshLoop_bvh _ 0%nat _ _ []) in Hm as (locals & MA & FV & EB & ->); [|done..].
  exists top, u, locals. done.
Qed.

(** C1: in every compiled scene with fewer than 2^31 nodes, the node list is
    the instance-level array followed by the arrays of the mesh-level
    builds, each locally valid and rebased exactly once by the length of
    the list at merge time; every child index of the merged list is below
    its length. *)
Theorem bvh_child_indices_valid ps sc :
  Compile ps = Returns (Some sc, None) →
  len (BvhNodeList sc) < 2 ^ 31 →
  ∃ top locals,
    (∃ u, BuildBVH (MeshInstances ps) 1 (instanceLeafCb ps) () = Returns (top, u))
    ∧ meshArrays (Meshes ps) locals
    ∧ Forall locallyValid (top :: locals)
    ∧ BvhNodeList sc = mergeAll top locals
    ∧ Forall (childrenIn 0 (len (BvhNodeList sc))) (BvhNodeList sc).
Proof.
  intros H Hlen.
  apply Compile_bvh in H as (top & u & locals & Hb & MA & FV & EB & _).
  rewrite EB in *.
  destruct (mergeCode_valid _ top FV Hlen) as (E & FL & V).
  destruct (instanceBvh_facts _ _ _ Hb) as (_ & Vtop & _).
  pose proof (mergeCode_len_le top locals).
  specialize (Vtop ltac:(lia)).
  exists top, locals. split; [eauto|]. split; [done|]. split; [by constructor|].
  split; [done|]. by apply V.
Qed.

(** *** The root of a tree *)

Lemma lookup_map_Some {A B} (f : A → B) (l : list A) k x :
  l !! k = Some x → map f l !! k = Some (f x).
Proof.
  revert k. induction l as [|y l IH]; intros [|k] H; simpl in *; try done.
  - by injection H as ->.
  - by apply IH.
Qed.


Lemma buildNodes_nonempty {V St} {BV : BoundedVolume V} (T : Z)
    (cb : BvhNode → list V → St → outcome (BvhNode * St)) fuel wl base st nodes st' :
  buildNodes fuel T cb wl base st = Returns (nodes, st') → 0 < len nodes.
Proof.
  destruct fuel as [|fuel]; [done|]. rewrite buildNodes_S. cbv zeta.
  destruct (len wl <=? T); intros Hb.
  - apply bind_Returns in Hb as ([node' st1] & _ & [= <- <-]). unfold len. simpl. lia.
  - apply bind_Returns in Hb as ([ln st1] & _ & Hb).
    apply bind_Returns in Hb as ([rn st2] & _ & [= <- <-]). unfold len. simpl. lia.
Qed.

(** The node of a call is the first of its array and every node of the
    array is reached from it: it is the root of the tree the call builds. *)
Lemma buildNodes_reaches {V St} {BV : BoundedVolume V} (T : Z)
    (cb : BvhNode → list V → St → outcome (BvhNode * St)) :
  ∀ fuel wl base st nodes st',
    buildNodes fuel T cb wl base st = Returns (nodes, st') →
    0 ≤ base → base + len nodes ≤ 2 ^ 32 →
    ∀ L, (∀ k n, nodes !! k = Some n → L !! (Z.to_nat base + k)%nat = Some n) →
    ∀ j, base ≤ j < base + len nodes → reaches L base j.
Proof.
  induction fuel as [|fuel IH]; intros wl base st nodes st' Hb H0 Hfit L HL j Hj; [done|].
  rewrite buildNodes_S in Hb. cbv zeta in Hb. destruct (len wl <=? T).
  - apply bind_Returns in Hb as ([node' st1] & Hcb & [= <- <-]).
    unfold len in Hj. simpl in Hj. assert (j = base) as -> by lia.
    eapply reaches_here; [done|]. specialize (HL 0%nat node' eq_refl).
    by rewrite Nat.add_0_r in HL.
  - apply bind_Returns in Hb as ([ln st1] & Hl & Hb).
    apply bind_Returns in Hb as ([rn st2] & Hr & [= <- <-]).
    set (N := SetChildNodes _ _ _) in *.
    assert (El : len (N :: ln ++ rn) = 1 + len ln + len rn)
      by (unfold len; simpl; rewrite length_app; lia).
    rewrite El in *. pose proof (buildNodes_nonempty _ _ _ _ _ _ _ _ Hl) as Hln.
    pose proof (buildNodes_nonempty _ _ _ _ _ _ _ _ Hr) as Hrn.
    assert (HN : L !! Z.to_nat base = Some N).
    { specialize (HL 0%nat N eq_refl). by rewrite Nat.add_0_r in HL. }
    assert (EN : NData N = ChildNodes (base + 1) (base + 1 + len ln)).
    { unfold N, SetChildNodes. simpl. by rewrite !uint32_small by lia. }
    destruct (decide (j = base)) as [->|Hne]; [by eapply reaches_here|].
    destruct (decide (j < base + 1 + len ln)) as [Hlt|Hge].
    + eapply reaches_left; [done|exact HN|exact EN|].
      eapply (IH _ _ _ _ _ Hl); [lia|lia| |lia].
      intros k n Hk. replace (Z.to_nat (base + 1) + k)%nat with (Z.to_nat base + S k)%nat
        by lia. apply HL. simpl. by apply lookup_app_l_Some.
    + eapply reaches_right; [done|exact HN|exact EN|].
      eapply (IH _ _ _ _ _ Hr); [lia|lia| |lia].
      intros k n Hk.
      replace (Z.to_nat (base + 1 + len ln) + k)%nat
        with (Z.to_nat base + S (length ln + k))%nat by (unfold len; lia).
      apply HL. simpl. rewrite lookup_app_r by lia.
      by replace (length ln + k - length ln)%nat with k by lia.
Qed.

(** The first node of the array of a build is bounded by the box of all the
    volumes, whenever the callback leaves the box of a node alone. *)
Lemma BuildBVH_head {V St} {BV : BoundedVolume V} (T : Z)
    (cb : BvhNode → list V → St → outcome (BvhNode * St)) wl st nodes st' :
  (∀ node wl st node' st', cb node wl st = Returns (node', st') →
     Min node' = Min node ∧ Max node' = Max node) →
  BuildBVH wl T cb st = Returns (nodes, st') →
  ∃ root, nodes !! 0%nat = Some root ∧ (Min root, Max root) = bboxOf wl.
Proof.
  intros Hbox Hb. unfold BuildBVH in Hb. rewrite buildNodes_S in Hb. cbv zeta in Hb.
  destruct (len wl <=? T).
  - apply bind_Returns in Hb as ([node' st1] & Hcb & [= <- <-]).
    exists node'. split; [done|]. destruct (Hbox _ _ _ _ _ Hcb) as [-> ->]. simpl.
    by destruct (bboxOf wl).
  - apply bind_Returns in Hb as ([ln st1] & Hl & Hb).
    apply bind_Returns in Hb as ([rn st2] & Hr & [= <- <-]).
    eexists. split; [reflexivity|]. simpl. by destruct (bboxOf wl).
Qed.

Lemma meshLeafCb_box node wl g node' g' :
  meshLeafCb node wl g = Returns (node', g') →
  Min node' = Min node ∧ Max node' = Max node.
Proof. intros H. by apply meshLeafCb_Returns in H as [-> _]. Qed.

(** Reaching survives the merge: what is reached in an array is reached, at
    the rebased positions, in a list that holds the rebased array. *)
Lemma reaches_rebase (loc L : list BvhNode) (off : Z) :
  0 ≤ off →
  (∀ k n, loc !! k = Some n → L !! (Z.to_nat off + k)%nat = Some (rebase off n)) →
  ∀ i j, reaches loc i j → reaches L (off + i) (off + j).
Proof.
  intros Hoff HL i j. induction 1 as [i n Hi Hn|i n l r j Hi Hn Hd _ IH|i n l r j Hi Hn Hd _ IH].
  - eapply reaches_here; [lia|]. rewrite Z2Nat.inj_add by lia. by apply HL.
  - eapply reaches_left; [lia| | |exact IH].
    + rewrite Z2Nat.inj_add by lia. by apply HL.
    + unfold rebase. rewrite Hd. simpl. f_equal; lia.
  - eapply reaches_right; [lia| | |exact IH].
    + rewrite Z2Nat.inj_add by lia. by apply HL.
    + unfold rebase. rewrite Hd. simpl. f_equal; lia.
Qed.

(** The k-th array sits in the merged list right after what was merged
    before it. *)
Lemma mergeCode_block top locals k loc :
  locals !! k = Some loc →
  ∃ suffix,
    mergeCode top locals
    = mergeCode top (take k locals)
        ++ map (fun n => OffsetChildNodes n (int32 (len (mergeCode top (take k locals))))) loc
        ++ suffix.
Proof.
  intros Hk.
  replace (mergeCode top locals)
    with (mergeCode top (take k locals ++ loc :: drop (S k) locals))
    by (by rewrite take_drop_middle).
  rewrite mergeCode_app, mergeCode_cons.
  set (M := mergeCode top (take k locals)).
  destruct (mergeCode_prefix (drop (S k) locals)
              (M ++ map (fun n => OffsetChildNodes n (int32 (len M))) loc)) as [suffix ->].
  exists suffix. by rewrite <- app_assoc.
Qed.

(** The node list, the recorded roots and the instances of a compiled
    scene, with the loop that produced them. *)
Lemma Compile_roots ps sc :
  Compile ps = Returns (Some sc, None) →
  ∃ os top u g meshBvhRoots locals,
    BuildBVH (MeshInstances ps) 1 (instanceLeafCb ps) () = Returns (top, u)
    ∧ range_loop partitionMesh 0 (Meshes ps)
        (mkGeom (allocGeometry os top (totalVertices ps)) 0 0,
         replicate (length (Meshes ps)) 0) = Returns (g, meshBvhRoots)
    ∧ meshArrays (Meshes ps) locals
    ∧ Forall (fun loc => 0 < len loc ∧ (len loc ≤ 2 ^ 32 → locallyValid loc)) locals
    ∧ BvhNodeList sc = mergeCode top locals
    ∧ meshBvhRoots = rootsFrom top locals
    ∧ Forall2 (instanceOf meshBvhRoots) (MeshInstances ps) (MeshInstanceList sc).
Proof.
  intros H.
  apply Compile_parts in H as (os & top & u & g & roots & new & cam & Hb & Hm & F2 & ->).
  pose proof Hm as Hm'.
  apply (meshLoop_bvh _ 0%nat _ _ []) in Hm' as (locals & MA & FV & EB & ER); [|done..].
  exists os, top, u, g, roots, locals. done.
Qed.

(** C3: in every compiled scene with fewer than 2^31 nodes, for every mesh
    the entry of [meshBvhRoots] recorded by the loop over the meshes is the
    position, in the final merged node list, of the root of the mesh's
    tree: the node there is the (rebased) node that is first in the mesh's
    own array, it is bounded by the box of all the primitives of the mesh,
    and every node of the mesh's block is reached from it by child indices,
    as every node of the mesh's own array is reached from position 0.  The
    recorded position is not 0, the root's position in the mesh's own
    array, and it is what every instance of the mesh gets as [BvhRoot]. *)
Theorem mesh_root_position ps sc :
  Compile ps = Returns (Some sc, None) →
  len (BvhNodeList sc) < 2 ^ 31 →
  ∃ os top u g meshBvhRoots locals,
    BuildBVH (MeshInstances ps) 1 (instanceLeafCb ps) () = Returns (top, u)
    ∧ range_loop partitionMesh 0 (Meshes ps)
        (mkGeom (allocGeometry os top (totalVertices ps)) 0 0,
         replicate (length (Meshes ps)) 0) = Returns (g, meshBvhRoots)
    ∧ meshArrays (Meshes ps) locals
    ∧ BvhNodeList sc = mergeAll top locals
    ∧ (∀ m pm, Meshes ps !! m = Some pm →
        ∃ loc root r,
          locals !! m = Some loc
          ∧ (∃ g0 g1, BuildBVH (Primitives pm) minPrimitivesPerLeaf meshLeafCb g0
                      = Returns (loc, g1))
          ∧ loc !! 0%nat = Some root
          ∧ (Min root, Max root) = bboxOf (Primitives pm)
          ∧ (∀ j, 0 ≤ j < len loc → reaches loc 0 j)
          ∧ meshBvhRoots !! m = Some r
          ∧ r = len (mergeAll top (take m locals))
          ∧ 0 < r
          ∧ BvhNodeList sc !! Z.to_nat r = Some (rebase r root)
          ∧ (∀ j, r ≤ j < r + len loc → reaches (BvhNodeList sc) r j))
    ∧ (∀ i pmi, MeshInstances ps !! i = Some pmi →
        ∃ mi, MeshInstanceList sc !! i = Some mi
          ∧ oMeshIndex mi = MeshIndex pmi
          ∧ meshBvhRoots !! Z.to_nat (MeshIndex pmi) = Some (BvhRoot mi)).
Proof.
  intros H Hlen.
  apply Compile_roots in H
    as (os & top & u & g & roots & locals & Hb & Hm & MA & FV & EB & ER & F2).
  rewrite EB in *.
  destruct (mergeCode_valid _ top FV Hlen) as (E & FL & V).
  destruct (instanceBvh_facts _ _ _ Hb) as (Ntop & _ & _).
  exists os, top, u, g, roots, locals.
  split; [done|]. split; [done|]. split; [done|]. split; [done|]. split.
  - intros m pm Hpm.
    destruct (Forall2_lookup_l _ _ _ _ _ MA Hpm) as (loc & Hloc & g0 & g1 & Hbl).
    set (M := mergeCode top (take m locals)) in *.
    pose proof (mergeCode_take_le top locals m) as HleM. fold M in HleM.
    pose proof (mergeCode_len_le top (take m locals)) as HtopM. fold M in HtopM.
    destruct (mergeCode_valid (take m locals) top) as (EM & _ & _);
      [by apply Forall_take|fold M; lia|]. fold M in EM.
    destruct (proj1 (Forall_lookup _ _) FV _ _ Hloc) as [Nloc Vloc].
    pose proof (mergeCode_take_le top locals (S m)) as HleS.
    rewrite (take_S_r _ _ _ Hloc), mergeCode_app in HleS. fold M in HleS.
    change (mergeCode M [loc])
      with (M ++ map (fun n => OffsetChildNodes n (int32 (len M))) loc) in HleS.
    rewrite len_app, len_map in HleS.
    specialize (Vloc ltac:(lia)).
    destruct (BuildBVH_head _ _ _ _ _ _ meshLeafCb_box Hbl) as (root & Hroot & Hbox).
    destruct (map_Offset_rebase loc (len M) (len loc)) as [Emap _]; [lia|lia|lia|exact Vloc|].
    destruct (mergeCode_block top locals m loc Hloc) as [suffix Eblock].
    fold M in Eblock. rewrite Emap in Eblock.
    assert (HL : ∀ k n, loc !! k = Some n →
              mergeCode top locals !! (Z.to_nat (len M) + k)%nat = Some (rebase (len M) n)).
    { intros k n Hk. rewrite Eblock. unfold len. rewrite Nat2Z.id.
      rewrite lookup_app_r by lia.
      replace (length M + k - length M)%nat with k by lia.
      apply lookup_app_l_Some. by apply lookup_map_Some. }
    assert (Hlocal : ∀ j, 0 ≤ j < len loc → reaches loc 0 j).
    { intros j Hj. unfold BuildBVH in Hbl.
      eapply (buildNodes_reaches _ _ _ _ _ _ _ _ Hbl); [lia|lia| |lia].
      intros k n Hk. exact Hk. }
    exists loc, root, (len M).
    split; [done|]. split; [eauto|]. split; [done|]. split; [done|]. split; [done|].
    split.
    { rewrite ER, (rootsFrom_lookup _ _ _ _ Hloc). fold M.
      by rewrite int32_small, uint32_small by lia. }
    split; [by rewrite <- EM|]. split; [lia|]. split.
    { specialize (HL 0%nat root Hroot). by rewrite Nat.add_0_r in HL. }
    intros j Hj.
    assert (H0M : 0 ≤ len M) by lia.
    assert (Hjl : 0 ≤ j - len M < len loc) by lia.
    pose proof (reaches_rebase loc (mergeCode top locals) (len M) H0M HL
                  0 (j - len M) (Hlocal _ Hjl)) as Hreach.
    by replace (len M + 0) with (len M) in Hreach by lia;
       replace (len M + (j - len M)) with j in Hreach by lia.
  - intros i pmi Hi.
    destruct (Forall2_lookup_l _ _ _ _ _ F2 Hi) as (mi & Hmi & Em & _ & Hroot & _).
    exists mi. done.
Qed.

(** ** Termination *)

Lemma terminates_copy_at {A} (dst : list A) offset src : terminates (copy_at dst offset src).
Proof. unfold copy_at. by destruct (_ && _). Qed.

Lemma terminates_bakeTextures sc : terminates (bakeTextures sc).
Proof.
  unfold bakeTextures. apply terminates_bind.
  - apply terminates_range_loop. intros i tex [os off]. rewrite bakeTexture_eq.
    apply terminates_bind; [apply terminates_store|intros ? _].
    apply terminates_bind; [apply terminates_copy_at|done].
  - by intros [].
Qed.

Lemma terminates_BuildBVH {V St} {BV : BoundedVolume V} (T : Z)
    (cb : BvhNode → list V → St → outcome (BvhNode * St)) wl st :
  1 ≤ T → (∀ node wl st, terminates (cb node wl st)) → terminates (BuildBVH wl T cb st).
Proof. intros HT Hcb. unfold BuildBVH. apply buildNodes_terminates; [done|done|lia]. Qed.

Lemma terminates_partitionMesh i pm st : terminates (partitionMesh i pm st).
Proof.
  destruct st as [g roots]. unfold partitionMesh. apply terminates_bind.
  - apply terminates_BuildBVH; [unfold minPrimitivesPerLeaf; lia|].
    apply terminates_meshLeafCb.
  - intros [nodes g1] _. apply terminates_bind; [apply terminates_store|done].
Qed.

Lemma terminates_processInstance roots i pmi os : terminates (processInstance roots i pmi os).
Proof.
  unfold processInstance. apply terminates_bind; [apply terminates_load|intros ? _].
  apply terminates_bind; [apply terminates_store|done].
Qed.

Lemma terminates_partitionGeometry sc : terminates (partitionGeometry sc).
Proof.
  unfold partitionGeometry. cbv zeta. apply terminates_bind.
  - apply terminates_BuildBVH; [lia|]. apply terminates_instanceLeafCb.
  - intros [top u] _. apply terminates_bind.
    + apply terminates_range_loop. apply terminates_partitionMesh.
    + intros [g roots] _. apply terminates_bind; [|done].
      apply terminates_range_loop. apply terminates_processInstance.
Qed.

(** [Compile] always comes back: with a result or with a panic. *)
Lemma terminates_Compile ps : terminates (Compile ps).
Proof.
  unfold Compile. cbv zeta. apply terminates_bind; [apply terminates_bakeTextures|].
  intros [c1 [e1|]] _; [done|].
  apply terminates_bind; [apply terminates_partitionGeometry|].
  intros [c2 [e2|]] _; [done|].
  apply terminates_bind; [done|]. by intros [c3 [e3|]] _.
Qed.

(** C4 (amended): if some instance refers to a mesh that does not exist,
    [Compile] does not return at all: it stops with a run-time panic, so the
    caller gets neither a scene, partial or not, nor an error value. *)
Theorem dangling_instance_panics ps pmi :
  pmi ∈ MeshInstances ps → len (Meshes ps) ≤ MeshIndex pmi →
  Compile ps = Panics.
Proof.
  intros Hin Hd. pose proof (terminates_Compile ps) as Ht.
  destruct (Compile ps) as [[r e]| |] eqn:E; [exfalso|done|done].
  destruct (Compile_Returns _ _ _ E) as (-> & c1 & c2 & cam & _ & _ & _ & _ & ->).
  apply Compile_bvh in E as (top & u & locals & _ & MA & _ & _ & F2).
  apply list_elem_of_lookup in Hin as [i Hi].
  destruct (Forall2_lookup_l _ _ _ _ _ F2 Hi) as (mi & _ & _ & Hr & _).
  apply Forall2_length in MA. unfold len in *. rewrite length_rootsFrom in Hr. lia.
Qed.

(** C10: whenever [Compile] returns, the error is nil and the scene is
    there; every stage on its path returns a nil error whenever it returns,
    and the one stage that fails, [createLayeredMaterialTrees], is not on
    the path. *)
Theorem Compile_error_is_nil ps r e :
  Compile ps = Returns (r, e) →
  e = None ∧ is_Some r
  ∧ (∀ sc sc' e', bakeTextures sc = Returns (sc', e') → e' = None)
  ∧ (∀ sc sc' e', partitionGeometry sc = Returns (sc', e') → e' = None)
  ∧ (∀ sc sc' e', setupCamera sc = Returns (sc', e') → e' = None)
  ∧ (∀ sc, ∃ msg, createLayeredMaterialTrees sc = Returns (sc, Some msg)).
Proof.
  intros H. destruct (Compile_Returns _ _ _ H) as (-> & c1 & c2 & cam & _ & _ & _ & _ & ->).
  split; [done|]. split; [eauto|]. split; [|split; [|split]].
  - intros sc sc' e' Hb. by destruct (bakeTextures_Returns _ _ _ Hb).
  - intros sc sc' e' Hp. by destruct (partitionGeometry_Returns _ _ _ Hp).
  - intros sc sc' e' Hc. by destruct (setupCamera_Returns _ _ _ Hc).
  - intros sc. eexists. reflexivity.
Qed.

(** * Further properties *)

(** ** Operator types *)

(** X1: [IsOpType] accepts exactly the three operators [OpMix], [OpBumpMap]
    and [OpNormalMap]; the sentinels [opInvalid] and [lastOpEntry] and every
    other value are rejected. *)
Theorem IsOpType_iff (t : Z) :
  IsOpType t = true ↔ t = OpMix ∨ t = OpBumpMap ∨ t = OpNormalMap.
Proof.
  unfold IsOpType, OpMix, OpBumpMap, OpNormalMap, opInvalid, lastOpEntry, opConst.
  rewrite andb_true_iff, !Z.ltb_lt. rewrite !uint32_small by lia. lia.
Qed.

(** ** align4 on every int *)

Lemma int_wrap_succ_int v :
  - 2 ^ 63 ≤ v < 2 ^ 63 →
  (- 2 ^ 63 ≤ v + 1 < 2 ^ 63 ∧ int_wrap (v + 1) = v + 1)
  ∨ (v + 1 = 2 ^ 63 ∧ int_wrap (v + 1) = - 2 ^ 63).
Proof.
  intros Hv. destruct (decide (v + 1 = 2 ^ 63)) as [E|E].
  - right. split; [done|]. rewrite E. reflexivity.
  - left. rewrite int_wrap_small by lia. lia.
Qed.

Ltac align4_wrap_int n Hn Hb :=
  destruct (int_wrap_succ_int n Hn) as [[Hb ->]|[Etop ->]];
  [ | simpl; unfold uint32, pad4;
      match goal with |- Some _ = Some (?x mod _) =>
        replace x with (2 ^ 63); [reflexivity|Z.to_euclidean_division_equations; lia] end ].

Lemma align4_loop_closed_int (n : Z) :
  - 2 ^ 63 ≤ n < 2 ^ 63 → align4_loop 4 n = Some (uint32 (pad4 n)).
Proof.
  intros Hn.
  align4_round n H0. align4_wrap_int n Hn Hb1.
  align4_round (n + 1) H1. align4_wrap_int (n + 1) Hb1 Hb2.
  align4_round (n + 1 + 1) H2. align4_wrap_int (n + 1 + 1) Hb2 Hb3.
  assert (Z.rem (n + 1 + 1 + 1) 4 = 0) by (Z.to_euclidean_division_equations; lia).
  rewrite align4_loop_stop by done. f_equal. f_equal.
  unfold pad4. Z.to_euclidean_division_equations; lia.
Qed.

(** X2: for every [int], negative or at the top of the range where
    [value++] wraps, the loop of [align4] stops within four iterations, and
    its result is a multiple of 4 that fits 32 bits. *)
Theorem align4_terminates_aligned (n : Z) :
  - 2 ^ 63 ≤ n < 2 ^ 63 →
  align4_loop 4 n = Some (align4 n)
  ∧ align4 n mod 4 = 0 ∧ 0 ≤ align4 n < 2 ^ 32.
Proof.
  intros Hn. unfold align4. rewrite (align4_loop_closed_int n Hn). simpl.
  split; [done|]. pose proof (pad4_bounds n) as [_ Hm].
  unfold uint32. Z.to_euclidean_division_equations; lia.
Qed.

(** X3: up to 2^32 - 4, [align4] adds at most 3 bytes of padding and is
    monotone. *)
Theorem align4_padding_monotone (a b : Z) :
  0 ≤ a → a ≤ b → b ≤ 2 ^ 32 - 4 →
  0 ≤ align4 a - a ≤ 3 ∧ align4 a ≤ align4 b.
Proof.
  intros Ha Hab Hb.
  pose proof (pad4_bounds a) as [Ba _]. pose proof (pad4_bounds b) as [Bb _].
  rewrite (align4_fits a) by lia. rewrite (align4_fits b) by lia.
  split; [lia|]. unfold pad4 in *. Z.to_euclidean_division_equations; lia.
Qed.

(** ** bakeTextures, whatever the sizes *)

Lemma copy_at_length {A} (dst : list A) offset src dst' :
  copy_at dst offset src = Returns dst' → length dst' = length dst.
Proof.
  unfold copy_at. destruct (0 <=? offset) eqn:E1; simpl; [|done].
  destruct (offset <=? len dst) eqn:E2; [|done]. intros [= <-].
  apply Z.leb_le in E1, E2. unfold len in E2.
  rewrite !length_app, !length_take, length_drop. lia.
Qed.

Lemma totalDataLen_range texs : 0 ≤ totalDataLen texs < 2 ^ 32.
Proof.
  unfold totalDataLen.
  assert (G : ∀ l acc, 0 ≤ acc < 2 ^ 32 →
    0 ≤ fold_left (fun acc tex => uint32 (acc + align4 (len (Data tex)))) l acc < 2 ^ 32).
  { induction l as [|t l IH]; intros acc Ha; simpl; [done|].
    apply IH. unfold uint32. apply Z.mod_pos_bound. lia. }
  apply G. lia.
Qed.

Lemma bakeLoop_metadata rest :
  ∀ i os off M os' off',
    TextureMetadataList os = M ++ replicate (length rest) zeroMetadata → length M = i →
    off mod 4 = 0 → 0 ≤ off < 2 ^ 32 →
    Forall (fun tex => len (Data tex) < 2 ^ 63) rest →
    range_loop bakeTexture i rest (os, off) = Returns (os', off') →
    ∃ mds, TextureMetadataList os' = M ++ mds
      ∧ Forall2 describes rest mds
      ∧ length (TextureData os') = length (TextureData os).
Proof.
  induction rest as [|tex rest IH]; intros i os off M os' off' HM Hi Hmod Hoff Hsz H;
    cbn [range_loop] in H.
  - injection H as <- <-. exists []. split; [exact HM|]. split; [constructor|done].
  - inversion Hsz as [|? ? Ht Hsz']; subst.
    apply bind_Returns in H as ([os1 off1] & H1 & H2). rewrite bakeTexture_eq in H1.
    apply bind_Returns in H1 as (md & S1 & H1). apply bind_Returns in H1 as (td & S2 & H1).
    injection H1 as <- <-. rewrite HM in S1.
    apply store_next in S1 as [_ ->]; [|unfold len; lia].
    apply copy_at_length in S2.
    replace (length (tex :: rest) - 1)%nat with (length rest) in H2 by (simpl; lia).
    pose proof (len_nonneg (Data tex)) as Hl.
    assert (Ha : align4 (len (Data tex)) mod 4 = 0 ∧ 0 ≤ align4 (len (Data tex)) < 2 ^ 32).
    { rewrite align4_closed by lia. pose proof (pad4_bounds (len (Data tex))) as [_ Hp].
      unfold uint32. Z.to_euclidean_division_equations; lia. }
    edestruct (IH (S (length M))) as (mds & E & F2 & EL); [| | | | |exact H2|].
    + reflexivity.
    + rewrite length_app. simpl. lia.
    + unfold uint32. Z.to_euclidean_division_equations; lia.
    + unfold uint32. apply Z.mod_pos_bound. lia.
    + exact Hsz'.
    + eexists (_ :: mds). split; [|split].
      * rewrite E, <- app_assoc. reflexivity.
      * constructor; [|exact F2]. unfold describes. simpl. done.
      * rewrite EL. simpl. exact S2.
Qed.

(** X4: whenever [bakeTextures] returns, also when the 32-bit offsets wrap,
    there is one metadata entry per texture, in order, with the texture's
    format, width and height and a 4-byte aligned offset, and the buffer
    has the length the first loop computed. *)
Theorem bakeTextures_metadata (sc sc' : sceneCompiler) (e : error) :
  Forall (fun tex => len (Data tex) < 2 ^ 63) (Textures (parsedScene sc)) →
  bakeTextures sc = Returns (sc', e) →
  Forall2 describes (Textures (parsedScene sc)) (TextureMetadataList (optimizedScene sc'))
  ∧ len (TextureData (optimizedScene sc')) = totalDataLen (Textures (parsedScene sc)).
Proof.
  intros Hsz H. unfold bakeTextures in H.
  apply bind_Returns in H as ([os off] & Hl & [= <- <-]).
  apply (bakeLoop_metadata _ _ _ _ []) in Hl as (mds & E & F2 & EL);
    [|done|done|done|lia|done].
  simpl in *. rewrite E. split; [exact F2|].
  pose proof (totalDataLen_range (Textures (parsedScene sc))).
  unfold len. rewrite EL, length_replicate. lia.
Qed.

(** ** bakeTextures: the buffer *)

Lemma paddedTotal_app l1 l2 : paddedTotal (l1 ++ l2) = paddedTotal l1 + paddedTotal l2.
Proof.
  unfold paddedTotal. induction l1 as [|t l1 IH]; simpl; [lia|]. rewrite IH. lia.
Qed.

Lemma paddedTotal_lower texs i tex :
  fits32 texs → texs !! i = Some tex →
  paddedTotal (take i texs) + len (Data tex) ≤ paddedTotal (take (S i) texs)
  ∧ paddedTotal (take (S i) texs) ≤ paddedTotal texs.
Proof.
  intros Hf Hi. rewrite (take_S_r _ _ _ Hi), paddedTotal_app.
  rewrite <- (take_drop_middle texs i tex Hi) in Hf.
  destruct (fits32_app _ _ Hf) as [_ Hf2]. destruct (fits32_cons _ _ Hf2) as [Ht Hr].
  destruct (paddedTotal_fits _ Hr) as [_ Br].
  pose proof (align4_fits _ (len_nonneg _) Ht) as Ea.
  pose proof (pad4_bounds (len (Data tex))) as [Bp _].
  change (paddedTotal [tex]) with (align4 (len (Data tex)) + 0). split; [lia|].
  pose proof (f_equal paddedTotal (take_drop_middle texs i tex Hi)) as E.
  rewrite paddedTotal_app in E. change (paddedTotal (tex :: drop (S i) texs))
    with (align4 (len (Data tex)) + paddedTotal (drop (S i) texs)) in E. lia.
Qed.

Lemma paddedTotal_take_mono texs i j :
  fits32 texs → (i ≤ j)%nat → paddedTotal (take i texs) ≤ paddedTotal (take j texs).
Proof.
  intros Hf Hij. rewrite <- (take_drop i (take j texs)).
  rewrite take_take, Nat.min_l by lia. rewrite paddedTotal_app.
  rewrite <- (take_drop j texs) in Hf. destruct (fits32_app _ _ Hf) as [Hj _].
  rewrite <- (take_drop i (take j texs)) in Hj. destruct (fits32_app _ _ Hj) as [_ Hd].
  destruct (paddedTotal_fits _ Hd). lia.
Qed.

(** X5: when the padded payloads fit 32 bits, the baked buffer is exactly
    the payloads in order, each followed by its zero padding; the payloads
    do not overlap and each ends within the buffer. *)
Theorem bakeTextures_buffer (sc : sceneCompiler) :
  let texs := Textures (parsedScene sc) in
  fits32 texs →
  ∃ os, bakeTextures sc = Returns (mkCompiler (parsedScene sc) os, None)
    ∧ TextureData os = flat_map padTex texs
    ∧ TextureMetadataList os = metadataFrom 0 texs
    ∧ (∀ i j ti mi mj, (i < j)%nat → texs !! i = Some ti →
         TextureMetadataList os !! i = Some mi → TextureMetadataList os !! j = Some mj →
         DataOffset mi + len (Data ti) ≤ DataOffset mj)
    ∧ (∀ i ti mi, texs !! i = Some ti → TextureMetadataList os !! i = Some mi →
         DataOffset mi + len (Data ti) ≤ len (TextureData os)).
Proof.
  intros texs Hf. destruct (paddedTotal_fits _ Hf) as [_ Hb].
  unfold bakeTextures. fold texs. rewrite (totalDataLen_fits _ Hf).
  set (os0 := with_TextureMetadata _ _).
  destruct (bakeTextures_loop texs [] [] (Z.to_nat (paddedTotal texs)) os0)
    as (os & Hrun & Htd & Hmd); try done.
  { change (len []) with 0. lia. }
  { lia. }
  change (length []) with 0%nat in Hrun. change (len []) with 0 in Hrun, Hmd.
  rewrite Hrun. cbn [mbind outcome_bind]. exists os.
  rewrite Nat.sub_diag in Htd. simpl in Htd, Hmd. rewrite app_nil_r in Htd.
  split; [done|]. split; [done|]. split; [done|]. rewrite Hmd, Htd. split.
  - intros i j ti mi mj Hij Hi Hmi Hmj.
    assert (Hj : is_Some (texs !! j)).
    { apply lookup_lt_is_Some. apply lookup_lt_Some in Hmj.
      by rewrite length_metadataFrom in Hmj. }
    destruct Hj as [tj Hj].
    rewrite (metadataFrom_lookup _ _ _ _ Hi) in Hmi. injection Hmi as <-.
    rewrite (metadataFrom_lookup _ _ _ _ Hj) in Hmj. injection Hmj as <-. simpl.
    pose proof (paddedTotal_lower _ _ _ Hf Hi) as [L1 _].
    pose proof (paddedTotal_take_mono texs (S i) j Hf ltac:(lia)). lia.
  - intros i ti mi Hi Hmi.
    rewrite (metadataFrom_lookup _ _ _ _ Hi) in Hmi. injection Hmi as <-. simpl.
    rewrite (length_flat_map_padTex _ Hf).
    pose proof (paddedTotal_lower _ _ _ Hf Hi) as [L1 L2]. lia.
Qed.

(** ** The stages composed *)

Lemma Compile_stages ps r e :
  Compile ps = Returns (r, e) →
  ∃ c1 c2 c3,
    bakeTextures (mkCompiler ps Scene_empty) = Returns (c1, None)
    ∧ partitionGeometry c1 = Returns (c2, None)
    ∧ setupCamera c2 = Returns (c3, None)
    ∧ r = Some (optimizedScene c3) ∧ e = None.
Proof.
  unfold Compile. intros H.
  apply bind_Returns in H as ([c1 e1] & H1 & H).
  destruct (bakeTextures_Returns _ _ _ H1) as [-> _].
  apply bind_Returns in H as ([c2 e2] & H2 & H).
  destruct (partitionGeometry_Returns _ _ _ H2) as (-> & _ & _).
  apply bind_Returns in H as ([c3 e3] & H3 & H).
  destruct (setupCamera_Returns _ _ _ H3) as (-> & _ & _).
  injection H as <- <-. exists c1, c2, c3. done.
Qed.

Lemma partitionGeometry_textures sc sc' e :
  partitionGeometry sc = Returns (sc', e) →
  TextureData (optimizedScene sc') = TextureData (optimizedScene sc)
  ∧ TextureMetadataList (optimizedScene sc') = TextureMetadataList (optimizedScene sc)
  ∧ oCamera (optimizedScene sc') = oCamera (optimizedScene sc).
Proof.
  intros H.
  apply partitionGeometry_Returns in H as (_ & _ & top & u & g & roots & _ & Hm & Hi).
  apply meshLoop_shape in Hm as (_ & E1 & E2 & _ & E3).
  apply (instanceLoop_Returns roots _ 0%nat _ []) in Hi as (new & -> & _); [|done..].
  simpl in *. done.
Qed.

(** X6: the geometry and camera stages leave the texture buffer and the
    texture metadata of a compiled scene as [bakeTextures] made them. *)
Theorem Compile_keeps_textures ps sc :
  Compile ps = Returns (Some sc, None) →
  ∃ c1, bakeTextures (mkCompiler ps Scene_empty) = Returns (c1, None)
    ∧ TextureData sc = TextureData (optimizedScene c1)
    ∧ TextureMetadataList sc = TextureMetadataList (optimizedScene c1).
Proof.
  intros H. apply Compile_stages in H as (c1 & c2 & c3 & H1 & H2 & H3 & [= ->] & _).
  apply partitionGeometry_textures in H2 as (E1 & E2 & _).
  unfold setupCamera in H3. cbv zeta in H3. injection H3 as <-.
  exists c1. simpl. done.
Qed.

(** X7: the camera of a compiled scene has the field of view of the parsed
    camera, its eye as position, its look vector as look-at and its up
    vector. *)
Theorem Compile_camera ps sc :
  Compile ps = Returns (Some sc, None) →
  oCamera sc = Some {| cFOV := FOV (pCamera ps); Position := Eye (pCamera ps);
                       LookAt := Look (pCamera ps); cUp := Up (pCamera ps) |}.
Proof.
  intros H. apply Compile_stages in H as (c1 & c2 & c3 & H1 & H2 & H3 & [= ->] & _).
  apply bakeTextures_Returns in H1 as [_ P1].
  apply partitionGeometry_Returns in H2 as (_ & P2 & _).
  unfold setupCamera in H3. cbv zeta in H3. injection H3 as <-.
  simpl in *. by rewrite P2, P1.
Qed.

(** X8: the instance list of a compiled scene has one entry per parsed
    instance, in order, with the instance's mesh index and the inverse of
    its transform; a scene is only ever compiled when every mesh index
    refers to an existing mesh. *)
Theorem compiled_instances ps sc :
  Compile ps = Returns (Some sc, None) →
  Forall2 (fun pmi mi =>
             oMeshIndex mi = MeshIndex pmi
             ∧ oTransform mi = Mat4_Inv (Transform pmi)
             ∧ 0 ≤ MeshIndex pmi < len (Meshes ps))
    (MeshInstances ps) (MeshInstanceList sc).
Proof.
  intros H. apply Compile_bvh in H as (top & u & locals & _ & MA & _ & _ & F2).
  apply Forall2_length in MA.
  eapply Forall2_impl; [exact F2|]. intros pmi mi (E1 & Hr & _ & E2).
  unfold len in *. rewrite length_rootsFrom in Hr. rewrite MA. done.
Qed.

(** X9: instances of the same mesh get the same BVH root. *)
Theorem same_mesh_same_root ps sc i j mi mj :
  Compile ps = Returns (Some sc, None) →
  MeshInstanceList sc !! i = Some mi → MeshInstanceList sc !! j = Some mj →
  oMeshIndex mi = oMeshIndex mj → BvhRoot mi = BvhRoot mj.
Proof.
  intros H Hi Hj E. apply Compile_bvh in H as (top & u & locals & _ & _ & _ & _ & F2).
  destruct (Forall2_lookup_r _ _ _ _ _ F2 Hi) as (pi & _ & Ei & _ & Ri & _).
  destruct (Forall2_lookup_r _ _ _ _ _ F2 Hj) as (pj & _ & Ej & _ & Rj & _).
  rewrite <- Ei, E, Ej in Ri. rewrite Ri in Rj. by injection Rj.
Qed.

(** ** The instance-level leaf callback *)

Lemma uint32_idemp z : uint32 (uint32 z) = uint32 z.
Proof. unfold uint32. apply Z.mod_mod. lia. Qed.

(** X10: the instance-level callback panics on an empty work list;
    otherwise it stores on the node the index of the first parsed instance
    whose pointer is the one of [workList[0]], and leaves the rest of the
    node and the state alone. *)
Theorem instanceLeafCb_first_index ps node pmi rest st i :
  MeshInstances ps !! i = Some pmi →
  (∀ j mj, (j < i)%nat → MeshInstances ps !! j = Some mj → miAddr mj ≠ miAddr pmi) →
  instanceLeafCb ps node [] st = Panics
  ∧ instanceLeafCb ps node (pmi :: rest) st = Returns (SetMeshIndex node (Z.of_nat i), st).
Proof.
  intros Hi Hfirst. split; [reflexivity|].
  unfold instanceLeafCb. simpl.
  assert (Hf : list_find (fun mi => miAddr mi = miAddr pmi) (MeshInstances ps)
               = Some (i, pmi)).
  { apply list_find_Some. split; [done|]. split; [done|]. intros j mj Hj Hlt.
    by apply (Hfirst j mj). }
  rewrite Hf. unfold SetMeshIndex. by rewrite uint32_idemp.
Qed.

(** ** The geometry buffers, mesh by mesh *)

Lemma meshLoop_layout_meshes meshes :
  ∀ i g roots g' roots' Av An Au Am kv km,
    range_loop partitionMesh i meshes (g, roots) = Returns (g', roots') →
    geomLayout g Av An Au Am kv km →
    vertexOffset g + 3 * countPrimitives meshes < 2 ^ 32 →
    ∃ orders,
      Forall2 (fun pm o => o ≡ₚ Primitives pm) meshes orders
      ∧ geomLayout g' (Av ++ flat_map promVertices (concat orders))
          (An ++ flat_map promNormals (concat orders))
          (Au ++ flat_map writtenUVs (concat orders))
          (Am ++ map MaterialIndex (concat orders))
          (kv - 3 * length (concat orders)) (km - length (concat orders)).
Proof.
  induction meshes as [|pm meshes IH];
    intros i g roots g' roots' Av An Au Am kv km H HL Hfit; simpl in H.
  - injection H as <- <-. exists []. simpl. rewrite !app_nil_r, !Nat.sub_0_r.
    split; [constructor|exact HL].
  - apply bind_Returns in H as ([g1 roots1] & H1 & H2).
    apply partitionMesh_Returns in H1 as (nodes & g0 & Hb & _ & ->).
    apply meshBvh_run in Hb as (run & R & P & _).
    rewrite countPrimitives_cons in Hfit.
    pose proof (countPrimitives_nonneg meshes) as Hcn.
    assert (El : len (concat run.*1) = len (Primitives pm))
      by (unfold len; by rewrite (Permutation_length P)).
    destruct (meshRun_layout _ _ _ R _ _ _ _ _ _ HL) as (K1 & K2 & HL1 & _); [lia|].
    set (g1 := mkGeom _ _ _) in H2.
    assert (HL1' : geomLayout g1 (Av ++ flat_map promVertices (concat run.*1))
        (An ++ flat_map promNormals (concat run.*1))
        (Au ++ flat_map writtenUVs (concat run.*1))
        (Am ++ map MaterialIndex (concat run.*1))
        (kv - 3 * length (concat run.*1)) (km - length (concat run.*1))) by exact HL1.
    assert (Hvo : vertexOffset g1 = vertexOffset g + 3 * len (Primitives pm)).
    { destruct HL as (_&_&_&_&LV&_), HL1 as (_&_&_&_&LV1&_). simpl.
      rewrite <- LV1, <- LV, <- El, len_app. f_equal. unfold len.
      clear. induction (concat run.*1) as [|p l IH]; [done|]. simpl length. lia. }
    destruct (IH _ _ _ _ _ _ _ _ _ _ _ H2 HL1') as (orders & F2 & HL2); [lia|].
    exists (concat run.*1 :: orders). split; [by constructor|].
    cbn [concat]. rewrite !flat_map_app, !map_app, !app_assoc, !length_app.
    rewrite <- !app_assoc in HL2. rewrite <- !app_assoc.
    eapply geomLayout_counts; [exact HL2|lia|lia].
Qed.

Lemma Forall2_perm_concat (meshes : list ParsedMesh) orders :
  Forall2 (fun pm o => o ≡ₚ Primitives pm) meshes orders →
  concat orders ≡ₚ flat_map Primitives meshes.
Proof. induction 1 as [|pm o l1 l2 P F IH]; simpl; [done|]. by rewrite P, IH. Qed.

Lemma compiled_buffers_by_mesh_aux ps sc :
  Compile ps = Returns (Some sc, None) →
  3 * totalPrimitives ps < 2 ^ 32 →
  ∃ orders,
    Forall2 (fun pm o => o ≡ₚ Primitives pm) (Meshes ps) orders
    ∧ VertexList sc = flat_map promVertices (concat orders)
    ∧ NormalList sc = flat_map promNormals (concat orders)
    ∧ MaterialIndexList sc = map MaterialIndex (concat orders).
Proof.
  intros H Hfit.
  apply Compile_parts in H as (os & top & u & g & roots & new & cam & _ & Hm & _ & ->).
  pose proof (countPrimitives_nonneg (Meshes ps)) as Hn. fold (totalPrimitives ps) in Hn.
  rewrite totalVertices_eq in Hm.
  destruct (meshLoop_layout_meshes _ _ _ _ _ _ [] [] [] [] _ _ Hm
              (allocGeometry_layout os top _ _ eq_refl Hn))
    as (orders & F2 & (EV & EN & _ & EM & _));
    [unfold totalPrimitives in Hfit; cbn [vertexOffset]; lia|].
  assert (El : len (concat orders) = totalPrimitives ps).
  { unfold len. rewrite (Permutation_length (Forall2_perm_concat _ _ F2)).
    apply countPrimitives_flat_map. }
  destruct (to_nat_primitives _ _ El) as [K1 K2].
  rewrite K1 in *. rewrite K2 in *. simpl in EV, EN, EM. rewrite app_nil_r in *.
  exists orders. done.
Qed.

(** X11: unless the vertex cursor wraps, the geometry buffers of a compiled
    scene are laid out mesh by mesh, in the order of the parsed meshes:
    each mesh owns one contiguous block holding exactly its own primitives
    (in the order its leaves were finished), and the vertex, normal and
    material buffers use the same order. *)
Theorem compiled_buffers_by_mesh ps sc :
  Compile ps = Returns (Some sc, None) →
  3 * totalPrimitives ps < 2 ^ 32 →
  ∃ orders,
    Forall2 (fun pm o => o ≡ₚ Primitives pm) (Meshes ps) orders
    ∧ VertexList sc = flat_map promVertices (concat orders)
    ∧ NormalList sc = flat_map promNormals (concat orders)
    ∧ MaterialIndexList sc = map MaterialIndex (concat orders).
Proof. exact (compiled_buffers_by_mesh_aux ps sc). Qed.

Lemma flat_map_lookup3 {A B} (f : A → list B) (l : list A) :
  (∀ x, length (f x) = 3%nat) →
  ∀ k x j, l !! k = Some x → (j < 3)%nat → flat_map f l !! (3 * k + j)%nat = f x !! j.
Proof.
  intros Hf. induction l as [|y l IH]; intros k x j Hk Hj; [done|].
  destruct k as [|k]; simpl in Hk; cbn [flat_map].
  - injection Hk as ->. rewrite lookup_app_l by (rewrite Hf; lia). done.
  - rewrite lookup_app_r by (rewrite Hf; lia). rewrite Hf.
    replace (3 * S k + j - 3)%nat with (3 * k + j)%nat by lia.
    by apply IH.
Qed.

(** X12: unless the vertex cursor wraps, primitive slot k of a compiled
    scene is consistent across the buffers: the material index at
    [MaterialIndex[k]] and the promoted vertices and normals at
    [3k], [3k+1], [3k+2] all belong to the same input primitive, and every
    input primitive has exactly one slot. *)
Theorem compiled_primitive_slots ps sc :
  Compile ps = Returns (Some sc, None) →
  3 * totalPrimitives ps < 2 ^ 32 →
  ∃ order, order ≡ₚ allPrimitives ps
    ∧ ∀ k prim, order !! k = Some prim →
        MaterialIndexList sc !! k = Some (MaterialIndex prim)
        ∧ VertexList sc !! (3 * k)%nat = Some (Vec3_Vec4 (at0 (Vertices prim)) f32_zero)
        ∧ VertexList sc !! (3 * k + 1)%nat = Some (Vec3_Vec4 (at1 (Vertices prim)) f32_zero)
        ∧ VertexList sc !! (3 * k + 2)%nat = Some (Vec3_Vec4 (at2 (Vertices prim)) f32_zero)
        ∧ NormalList sc !! (3 * k)%nat = Some (Vec3_Vec4 (at0 (Normals prim)) f32_zero)
        ∧ NormalList sc !! (3 * k + 1)%nat = Some (Vec3_Vec4 (at1 (Normals prim)) f32_zero)
        ∧ NormalList sc !! (3 * k + 2)%nat = Some (Vec3_Vec4 (at2 (Normals prim)) f32_zero).
Proof.
  intros H Hfit.
  destruct (compiled_buffers_by_mesh_aux ps sc H Hfit) as (orders & F2 & EV & EN & EM).
  exists (concat orders). split; [by apply Forall2_perm_concat|].
  intros k prim Hk. rewrite EV, EN, EM.
  split; [apply lookup_map_Some; exact Hk|].
  assert (LV : ∀ j, (j < 3)%nat →
    flat_map promVertices (concat orders) !! (3 * k + j)%nat = promVertices prim !! j)
    by (intros j Hj; apply flat_map_lookup3; [intros; reflexivity|exact Hk|exact Hj]).
  assert (LN : ∀ j, (j < 3)%nat →
    flat_map promNormals (concat orders) !! (3 * k + j)%nat = promNormals prim !! j)
    by (intros j Hj; apply flat_map_lookup3; [intros; reflexivity|exact Hk|exact Hj]).
  pose proof (LV 0%nat ltac:(lia)) as V0. pose proof (LN 0%nat ltac:(lia)) as N0.
  rewrite Nat.add_0_r in V0, N0.
  rewrite V0, N0, (LV 1%nat), (LV 2%nat), (LN 1%nat), (LN 2%nat) by lia. done.
Qed.

(** ** Instance leaves *)

Lemma leafNodes_Forall (P : BvhNode → Prop) nodes :
  (∀ n l r, NData n = ChildNodes l r → P n) →
  Forall P (leafNodes nodes) → Forall P nodes.
Proof.
  intros Hint. induction nodes as [|n nodes IH]; simpl; [done|].
  destruct (NData n) eqn:E; intros HF.
  - inversion HF; subst. constructor; auto.
  - constructor; [by eapply Hint|auto].
  - inversion HF; subst. constructor; auto.
  - inversion HF; subst. constructor; auto.
Qed.

Lemma instanceRun_ok ps run st st' :
  len (MeshInstances ps) ≤ 2 ^ 32 →
  LeafRun (instanceLeafCb ps) st run st' →
  Forall (instanceLeafOk (length (MeshInstances ps))) run.*2.
Proof.
  intros Hn. induction 1 as [|st node wl node' st1 run st2 Hd Hcb Hrun IH]; [constructor|].
  simpl. constructor; [|exact IH].
  unfold instanceLeafCb in Hcb. apply bind_Returns in Hcb as (pmi & _ & [= <- <-]).
  destruct (list_find _ _) as [[index mi]|] eqn:Ef.
  - apply list_find_Some in Ef as (Hl & _). apply lookup_lt_Some in Hl.
    unfold instanceLeafOk, SetMeshIndex, len in *. simpl.
    rewrite uint32_idemp, uint32_small by lia. lia.
  - unfold instanceLeafOk. by rewrite Hd.
Qed.

Lemma meshRun_ok n run g g' :
  LeafRun meshLeafCb g run g' → Forall (instanceLeafOk n) run.*2.
Proof.
  induction 1 as [|g node wl node' g1 run g2 Hd Hcb Hrun IH]; [constructor|].
  simpl. constructor; [|exact IH]. by apply meshLeafCb_Returns in Hcb as [-> _].
Qed.

Lemma instanceLeafOk_offset n node offset :
  instanceLeafOk n node → instanceLeafOk n (OffsetChildNodes node offset).
Proof.
  unfold instanceLeafOk, OffsetChildNodes. destruct (NData node) eqn:E; simpl; try done.
  all: by rewrite E.
Qed.

Lemma mergeCode_Forall (P : BvhNode → Prop) locals :
  (∀ n o, P n → P (OffsetChildNodes n o)) →
  ∀ top, Forall P top → Forall (Forall P) locals → Forall P (mergeCode top locals).
Proof.
  intros Hoff. induction locals as [|loc locals IH]; intros top Ht Hl; [done|].
  inversion Hl; subst. rewrite mergeCode_cons. apply IH; [|done].
  apply Forall_app. split; [done|]. apply Forall_forall. intros n Hin.
  apply list_elem_of_In, in_map_iff in Hin as (m & <- & Hm).
  apply Hoff. eapply Forall_forall; [eassumption|]. by apply list_elem_of_In.
Qed.

(** X13: in a compiled scene every instance leaf of the node list carries
    the index of an existing parsed instance. *)
Theorem compiled_instance_leaves ps sc :
  Compile ps = Returns (Some sc, None) →
  len (MeshInstances ps) ≤ 2 ^ 32 →
  Forall (instanceLeafOk (length (MeshInstances ps))) (BvhNodeList sc).
Proof.
  intros H Hn. apply Compile_bvh in H as (top & u & locals & Hb & MA & _ & -> & _).
  assert (Hint : ∀ n l r, NData n = ChildNodes l r →
                   instanceLeafOk (length (MeshInstances ps)) n).
  { intros n l r E. unfold instanceLeafOk. by rewrite E. }
  apply mergeCode_Forall.
  - intros n o. apply instanceLeafOk_offset.
  - unfold BuildBVH in Hb.
    destruct (buildNodes_run _ _ (instanceLeafCb_leafOnly ps) _ _ _ _ _ _ Hb)
      as (run & R & _ & L).
    apply (leafNodes_Forall _ _ Hint). rewrite L. by eapply instanceRun_ok.
  - clear -MA Hint. induction MA as [|pm loc ms ls (g & g' & Hb) MA IH]; constructor; [|done].
    unfold BuildBVH in Hb.
    destruct (buildNodes_run _ _ meshLeafCb_leafOnly _ _ _ _ _ _ Hb) as (run & R & _ & L).
    apply (leafNodes_Forall _ _ Hint). rewrite L. by eapply meshRun_ok.
Qed.

End Properties.

(** * The theorems at concrete inputs *)

Import Example.

Lemma align4_smallest_multiple_witness :
  align4 5 mod 4 = 0 ∧ align4 (align4 5) = align4 5
  ∧ 5 ≤ align4 5 ∧ ∀ m, 5 ≤ m → m mod 4 = 0 → align4 5 ≤ m.
Proof.
  destruct (align4_smallest_multiple 5) as (H1 & H2 & H3); [lia|].
  destruct H3 as [H3 H4]; [lia|]. repeat split; assumption.
Defined.

(** At 2^32 the result is truncated to 0, which is below the argument. *)
Lemma align4_counterexample :
  0 ≤ 2 ^ 32 ∧ align4 (2 ^ 32) = 0 ∧ ¬ (2 ^ 32 ≤ align4 (2 ^ 32)).
Proof. split; [lia|]. split; [reflexivity|]. vm_compute. intros H. by apply H. Qed.

Lemma bakeTextures_layout_witness :
  ∃ os, bakeTextures (mkCompiler exampleScene Scene_empty)
        = Returns (mkCompiler exampleScene os, None)
    ∧ map DataOffset (TextureMetadataList os) = [0; 4; 12]
    ∧ len (TextureData os) = 20.
Proof.
  destruct (bakeTextures_layout (mkCompiler exampleScene Scene_empty))
    as (os & Hrun & _ & _ & _ & Hex).
  - vm_compute. reflexivity.
  - destruct Hex as [Ho Hl]; [reflexivity|]. exists os. repeat split; assumption.
Defined.

Lemma len_hugeTexture : len (Data hugeTexture) = 2 ^ 32.
Proof.
  change (Data hugeTexture) with (replicate (Z.to_nat (2 ^ 32)) x00).
  unfold len. rewrite length_replicate. apply Z2Nat.id. lia.
Qed.

(** A texture of 4 GiB: [align4] truncates its length to 0, the buffer is
    empty and the payload cannot be sliced out of it. *)
Lemma bakeTextures_counterexample :
  ∃ os md,
    bakeTextures (mkCompiler hugeScene Scene_empty)
      = Returns (mkCompiler hugeScene os, None)
    ∧ TextureMetadataList os !! 0%nat = Some md
    ∧ take (length (Data hugeTexture))
        (drop (Z.to_nat (DataOffset md)) (TextureData os))
      ≠ Data hugeTexture.
Proof.
  exact (bakeTextures_unrecoverable (mkCompiler hugeScene Scene_empty) hugeTexture
           eq_refl len_hugeTexture).
Qed.

Lemma Compile_exampleScene :
  Compile exampleScene = Returns (Some (compiled exampleScene), None).
Proof. vm_compute. reflexivity. Qed.

Lemma Compile_splitScene :
  Compile splitScene = Returns (Some (compiled splitScene), None).
Proof. vm_compute. reflexivity. Qed.

Lemma bvh_child_indices_valid_witness :
  len (BvhNodeList (compiled splitScene)) < 2 ^ 31
  ∧ Forall (childrenIn 0 (len (BvhNodeList (compiled splitScene))))
      (BvhNodeList (compiled splitScene)).
Proof.
  assert (Hlen : len (BvhNodeList (compiled splitScene)) < 2 ^ 31)
    by (vm_compute; reflexivity).
  split; [exact Hlen|].
  destruct (bvh_child_indices_valid splitScene _ Compile_splitScene Hlen)
    as (top & locals & _ & _ & _ & _ & H).
  exact H.
Defined.

Lemma leaf_ranges_partition_witness :
  totalPrimitives exampleScene < 2 ^ 32
  ∧ chain 0 (primRanges (BvhNodeList (compiled exampleScene))) (totalPrimitives exampleScene).
Proof.
  assert (Hfit : totalPrimitives exampleScene < 2 ^ 32) by (vm_compute; reflexivity).
  split; [exact Hfit|].
  exact (leaf_ranges_partition exampleScene _ Compile_exampleScene Hfit).
Defined.

Lemma mesh_root_position_witness :
  len (BvhNodeList (compiled splitScene)) < 2 ^ 31
  ∧ ∃ meshBvhRoots : list Z,
      (∀ m pm, Meshes splitScene !! m = Some pm →
         ∃ loc root r,
           loc !! 0%nat = Some root
           ∧ (Min root, Max root) = bboxOf (Primitives pm)
           ∧ meshBvhRoots !! m = Some r ∧ 0 < r
           ∧ BvhNodeList (compiled splitScene) !! Z.to_nat r = Some (rebase r root)
           ∧ ∀ j, r ≤ j < r + len loc → reaches (BvhNodeList (compiled splitScene)) r j)
      ∧ (∀ i pmi, MeshInstances splitScene !! i = Some pmi →
           ∃ mi, MeshInstanceList (compiled splitScene) !! i = Some mi
             ∧ meshBvhRoots !! Z.to_nat (MeshIndex pmi) = Some (BvhRoot mi)).
Proof.
  assert (Hlen : len (BvhNodeList (compiled splitScene)) < 2 ^ 31)
    by (vm_compute; reflexivity).
  split; [exact Hlen|].
  destruct (mesh_root_position splitScene _ Compile_splitScene Hlen)
    as (os & top & u & g & roots & locals & _ & _ & _ & _ & Hmesh & Hinst).
  exists roots. split.
  - intros m pm Hpm.
    destruct (Hmesh m pm Hpm)
      as (loc & root & r & _ & _ & H1 & H2 & _ & H3 & _ & H4 & H5 & H6).
    exists loc, root, r. repeat split; assumption.
  - intros i pmi Hi. destruct (Hinst i pmi Hi) as (mi & H1 & _ & H2).
    exists mi. split; assumption.
Defined.

Lemma dangling_instance_panics_witness : Compile danglingScene = Panics.
Proof.
  apply (dangling_instance_panics danglingScene (inst 0 1 0)).
  - apply list_elem_of_here.
  - vm_compute. intros H. discriminate H.
Defined.

(** The dangling instance gives no error value: [Compile] panics. *)
Lemma dangling_instance_counterexample :
  MeshIndex (inst 0 1 0) = 1 ∧ len (Meshes danglingScene) = 1
  ∧ Compile danglingScene = Panics
  ∧ ∀ r e, Compile danglingScene ≠ Returns (r, e).
Proof.
  split; [reflexivity|]. split; [reflexivity|].
  assert (H : Compile danglingScene = Panics) by (vm_compute; reflexivity).
  split; [exact H|]. intros r e. rewrite H. discriminate.
Qed.

Lemma compiled_geometry_lists_witness :
  len (VertexList (compiled exampleScene)) = 15
  ∧ len (MaterialIndexList (compiled exampleScene)) = 5
  ∧ zeroW (VertexList (compiled exampleScene)).
Proof.
  destruct (compiled_geometry_lists exampleScene _ Compile_exampleScene)
    as (_ & _ & _ & _ & Hz & _ & _ & Hex).
  destruct Hex as [H1 H2]; [reflexivity|]. split; [exact H1|]. split; [exact H2|exact Hz].
Defined.

Lemma Compile_error_is_nil_witness :
  ∃ sc, Compile exampleScene = Returns (Some sc, None).
Proof.
  destruct (Compile_error_is_nil exampleScene _ _ Compile_exampleScene) as (_ & _ & _).
  exists (compiled exampleScene). exact Compile_exampleScene.
Defined.

(** C6 at one triangle: the UV of the third vertex is not copied; its slot
    keeps the zero value of the allocation. *)
Lemma uv_third_vertex_not_written :
  at2 (UVs (tri 7)) = mkVec2 7 3
  ∧ ∃ sc, Compile oneTriangleScene = Returns (Some sc, None)
      ∧ UvList sc = [mkVec2 7 1; mkVec2 7 2; mkVec2 0 0].
Proof.
  split; [reflexivity|]. eexists. split; [vm_compute; reflexivity|]. reflexivity.
Qed.

(** ** The further properties at concrete inputs *)

Lemma align4_terminates_aligned_witness :
  align4_loop 4 (-3) = Some (align4 (-3))
  ∧ align4 (-3) mod 4 = 0 ∧ 0 ≤ align4 (-3) < 2 ^ 32.
Proof. apply (align4_terminates_aligned (-3)). lia. Defined.

Lemma align4_padding_monotone_witness :
  0 ≤ align4 5 - 5 ≤ 3 ∧ align4 5 ≤ align4 9.
Proof. apply (align4_padding_monotone 5 9); lia. Defined.

Lemma bakeTextures_exampleScene :
  bakeTextures (mkCompiler exampleScene Scene_empty) = Returns (baked exampleScene, None).
Proof. vm_compute. reflexivity. Qed.

Lemma bakeTextures_metadata_witness :
  Forall2 describes (Textures exampleScene)
    (TextureMetadataList (optimizedScene (baked exampleScene)))
  ∧ len (TextureData (optimizedScene (baked exampleScene)))
    = totalDataLen (Textures exampleScene).
Proof.
  apply (bakeTextures_metadata (mkCompiler exampleScene Scene_empty) _ None).
  - repeat constructor.
  - exact bakeTextures_exampleScene.
Defined.

Lemma bakeTextures_buffer_witness :
  ∃ os, bakeTextures (mkCompiler exampleScene Scene_empty)
        = Returns (mkCompiler exampleScene os, None)
    ∧ TextureData os = flat_map padTex (Textures exampleScene).
Proof.
  destruct (bakeTextures_buffer (mkCompiler exampleScene Scene_empty))
    as (os & H1 & H2 & _).
  - vm_compute. reflexivity.
  - exists os. split; [exact H1|exact H2].
Defined.

Lemma Compile_keeps_textures_witness :
  ∃ c1, bakeTextures (mkCompiler exampleScene Scene_empty) = Returns (c1, None)
    ∧ TextureData (compiled exampleScene) = TextureData (optimizedScene c1)
    ∧ TextureMetadataList (compiled exampleScene) = TextureMetadataList (optimizedScene c1).
Proof. exact (Compile_keeps_textures exampleScene _ Compile_exampleScene). Defined.

Lemma Compile_camera_witness :
  oCamera (compiled exampleScene)
  = Some {| cFOV := 45; Position := v3 0 0 0; LookAt := v3 0 0 1; cUp := v3 0 1 0 |}.
Proof. exact (Compile_camera exampleScene _ Compile_exampleScene). Defined.

Lemma compiled_instances_witness :
  Forall2 (fun pmi mi =>
             oMeshIndex mi = MeshIndex pmi
             ∧ oTransform mi = Mat4_Inv (Transform pmi)
             ∧ 0 ≤ MeshIndex pmi < len (Meshes exampleScene))
    (MeshInstances exampleScene) (MeshInstanceList (compiled exampleScene)).
Proof. exact (compiled_instances exampleScene _ Compile_exampleScene). Defined.

Lemma same_mesh_same_root_witness :
  ∃ mi mj, MeshInstanceList (compiled exampleScene) !! 0%nat = Some mi
    ∧ MeshInstanceList (compiled exampleScene) !! 2%nat = Some mj
    ∧ oMeshIndex mi = oMeshIndex mj
    ∧ BvhRoot mi = BvhRoot mj.
Proof.
  eexists _, _. split; [vm_compute; reflexivity|]. split; [vm_compute; reflexivity|].
  split; [reflexivity|].
  eapply (same_mesh_same_root exampleScene _ 0 2 _ _ Compile_exampleScene).
  - vm_compute. reflexivity.
  - vm_compute. reflexivity.
  - reflexivity.
Defined.

Lemma instanceLeafCb_first_index_witness :
  instanceLeafCb exampleScene (mkBvhNode (v3 0 0 0) (v3 1 1 1) NoData) [] () = Panics
  ∧ instanceLeafCb exampleScene (mkBvhNode (v3 0 0 0) (v3 1 1 1) NoData) [inst 1 0 2] ()
    = Returns (SetMeshIndex (mkBvhNode (v3 0 0 0) (v3 1 1 1) NoData) 1, ()).
Proof.
  apply (instanceLeafCb_first_index exampleScene
           (mkBvhNode (v3 0 0 0) (v3 1 1 1) NoData) (inst 1 0 2) [] () 1).
  - reflexivity.
  - intros j mj Hj Hl. destruct j as [|j]; [|lia].
    simpl in Hl. injection Hl as <-. simpl. lia.
Defined.

Lemma compiled_buffers_by_mesh_witness :
  ∃ orders,
    Forall2 (fun pm o => o ≡ₚ Primitives pm) (Meshes exampleScene) orders
    ∧ MaterialIndexList (compiled exampleScene) = map MaterialIndex (concat orders).
Proof.
  destruct (compiled_buffers_by_mesh exampleScene _ Compile_exampleScene)
    as (orders & F2 & _ & _ & EM).
  - vm_compute. reflexivity.
  - exists orders. split; [exact F2|exact EM].
Defined.

Lemma compiled_primitive_slots_witness :
  ∃ order, order ≡ₚ allPrimitives exampleScene
    ∧ ∀ k prim, order !! k = Some prim →
        MaterialIndexList (compiled exampleScene) !! k = Some (MaterialIndex prim).
Proof.
  destruct (compiled_primitive_slots exampleScene _ Compile_exampleScene)
    as (order & P & H).
  - vm_compute. reflexivity.
  - exists order. split; [exact P|]. intros k prim Hk. by destruct (H k prim Hk).
Defined.

Lemma compiled_instance_leaves_witness :
  Forall (instanceLeafOk (length (MeshInstances exampleScene)))
    (BvhNodeList (compiled exampleScene)).
Proof.
  apply (compiled_instance_leaves exampleScene _ Compile_exampleScene).
  vm_compute. intros H. discriminate H.
Defined.
